(** * The change-impact pipeline of [main_app.py] ([feature_4])

    A shallow embedding of the diff / metrics / narrative part of
    [feature_4]: Python strings are lists of code points, [st.session_state]
    is a finite map, the generative model is an arbitrary fallible responder,
    and [difflib.unified_diff] is embedded from CPython's [difflib]. *)

From Stdlib Require Import ZArith NArith Lia PrimFloat FloatOps SpecFloat Uint63.
From stdpp Require Import base list strings gmap.

Local Open Scope N_scope.

(** ** Python strings *)

(** A [str] is a sequence of Unicode code points. *)
Abbreviation pystr := (list N).

(** ASCII literals. *)
Fixpoint py (s : string) : pystr :=
  match s with
  | EmptyString => []
  | String a s' => Ascii.N_of_ascii a :: py s'
  end.

Definition LF : N := 0x0A.
Definition CR : N := 0x0D.

(** The line boundaries of [str.splitlines]: \n \r \v \f \x1c \x1d \x1e
    \x85     (and the pair \r\n, handled in [splitlines]). *)
Definition is_linebreak (c : N) : bool :=
  (c =? 0x0A) || (c =? 0x0D) || (c =? 0x0B) || (c =? 0x0C) ||
  (c =? 0x1C) || (c =? 0x1D) || (c =? 0x1E) || (c =? 0x85) ||
  (c =? 0x2028) || (c =? 0x2029).

(** [s.splitlines()]: break at every line boundary, boundaries dropped, no
    empty last line after a final boundary. *)
Fixpoint splitlines (s : pystr) : list pystr :=
  match s with
  | [] => []
  | c :: rest =>
      if is_linebreak c then
        [] :: match rest with
              | c' :: rest' =>
                  if (c =? CR) && (c' =? LF) then splitlines rest'
                  else splitlines rest
              | [] => []
              end
      else
        match splitlines rest with
        | [] => [[c]]
        | l :: ls => (c :: l) :: ls
        end
  end.

(** [sep.join(l)] *)
Fixpoint join (sep : pystr) (l : list pystr) : pystr :=
  match l with
  | [] => []
  | x :: xs =>
      match xs with
      | [] => x
      | _ :: _ => x ++ sep ++ join sep xs
      end
  end.

(** [s.startswith(p)] *)
Fixpoint startswith (s p : pystr) : bool :=
  match p with
  | [] => true
  | x :: p' =>
      match s with
      | [] => false
      | y :: s' => (x =? y) && startswith s' p'
      end
  end.

(** [s.count(c)] for a one-character [c]. *)
Definition count_char (c : N) (s : pystr) : nat :=
  length (filter (λ x, x = c) s).

(** [str(n)] for a non-negative [int]. *)
Fixpoint digits_fuel (fuel : nat) (n : N) (acc : pystr) : pystr :=
  match fuel with
  | O => acc
  | S fuel' =>
      let acc' := (0x30 + n mod 10) :: acc in
      if n / 10 =? 0 then acc' else digits_fuel fuel' (n / 10) acc'
  end.

Definition str_of_nat (n : nat) : pystr :=
  let m := N.of_nat n in digits_fuel (S (N.to_nat (N.log2 m))) m [].

(** ** Regular-expression substitution

    [re.sub(pattern, repl, s)] scans [s] from the left; at each position not
    inside an earlier match it tries the pattern, replaces the match and
    resumes after it, or copies the character.  [pat prev s] is the length
    of the match of the pattern anchored at the head of [s], where [prev] is
    the character before it ([None] at the start of the text); the three
    patterns of [feature_4] never match the empty string.  [skip] counts
    the characters of the current match still to be passed over. *)
Fixpoint re_sub (pat : option N → pystr → option nat) (repl : pystr → pystr)
    (prev : option N) (skip : nat) (s : pystr) : pystr :=
  match s with
  | [] => []
  | c :: s' =>
      match skip with
      | S k => re_sub pat repl (Some c) k s'
      | O =>
          match pat prev s with
          | Some (S k) => repl (take (S k) s) ++ re_sub pat repl (Some c) k s'
          | _ => c :: re_sub pat repl (Some c) 0 s'
          end
      end
  end.

Definition LT : N := 0x3C.
Definition GT : N := 0x3E.

(** The longest prefix of characters satisfying [p]. *)
Fixpoint span_while (p : N → bool) (s : pystr) : nat :=
  match s with
  | [] => O
  | c :: s' => if p c then S (span_while p s') else O
  end.

(** [<[^>]+>]: a [<], a longest non-empty run of characters other than [>],
    then [>].  A shorter run is followed by a character other than [>], so
    backtracking never finds another match. *)
Definition pat_tag (_ : option N) (s : pystr) : option nat :=
  match s with
  | [] => None
  | c :: s' =>
      if c =? LT then
        let n := span_while (λ x, negb (x =? GT)) s' in
        match n, drop n s' with
        | S _, _ :: _ => Some (S (S n))
        | _, _ => None
        end
      else None
  end.

(** [[^\x00-\x7F]+]: a longest non-empty run of characters above 0x7F. *)
Definition pat_non_ascii (_ : option N) (s : pystr) : option nat :=
  match span_while (λ x, 0x7F <? x) s with
  | O => None
  | S n => Some (S n)
  end.

(** ** The prompt sanitizer *)

Definition MAX_CHARS : nat := 10000.

(** [clean_and_truncate_prompt(text, max_chars=MAX_CHARS)] *)
Definition clean_and_truncate_prompt_at (text : pystr) (max_chars : nat) : pystr :=
  let text := re_sub pat_tag (λ _, []) None 0 text in
  let text := re_sub pat_non_ascii (λ _, []) None 0 text in
  take max_chars text.

Definition clean_and_truncate_prompt (text : pystr) : pystr :=
  clean_and_truncate_prompt_at text MAX_CHARS.

(** The spec's words for the sanitizer's result. *)

(** A markup tag [<...>]: what the pattern [<[^>]+>] matches. *)
Definition has_tag (s : pystr) : Prop :=
  ∃ pre body post, s = pre ++ LT :: body ++ GT :: post ∧ body ≠ [] ∧ GT ∉ body.

(** The 7-bit range kept by the sanitizer. *)
Definition seven_bit (c : N) : Prop := c ≤ 0x7F.

Local Close Scope N_scope.

(** ** [difflib.SequenceMatcher(None, a, b)] over lists of lines

    [isjunk] is [None] and [autojunk] is [True], as [unified_diff] builds
    it.  Indices are [nat]: every index the code computes is non-negative,
    apart from the key [j-1] of [j2len.get(j-1, 0)], kept in [Z]. *)

(** [namedtuple('Match', 'a b size')] *)
Definition Match : Type := nat * nat * nat.

Inductive tag := Replace | Delete | Insert | Equal.

(** [(tag, i1, i2, j1, j2)] *)
Definition opcode : Type := tag * nat * nat * nat * nat.

Definition is_equal (t : tag) : bool :=
  match t with Equal => true | _ => false end.

(** [indices = b2j.setdefault(elt, []); indices.append(i)] *)
Definition b2j_add (b2j : gmap pystr (list nat)) (ie : nat * pystr) :
    gmap pystr (list nat) :=
  <[ie.2 := default [] (b2j !! ie.2) ++ [ie.1]]> b2j.

(** [__chain_b]: the positions of every line of [b]; with 200 lines or
    more, the lines occurring more than [n // 100 + 1] times ("popular")
    are deleted from the map. *)
Definition chain_b (b : list pystr) : gmap pystr (list nat) :=
  let b2j := foldl b2j_add ∅ (imap pair b) in
  let n := length b in
  if 200 <=? n then
    let ntest := n / 100 + 1 in
    filter (λ kv, length kv.2 ≤ ntest) b2j
  else b2j.

(** [self.bjunk]: empty, as [isjunk] is [None]. *)
Definition bjunk : gset pystr := ∅.

Definition isbjunk (x : option pystr) : bool :=
  match x with
  | Some l => bool_decide (l ∈ bjunk)
  | None => false
  end.

(** [a[i] == b[j]] for indices in range. *)
Definition elt_eqb (x y : option pystr) : bool :=
  match x, y with
  | Some u, Some v => bool_decide (u = v)
  | _, _ => false
  end.

Section SequenceMatcher.
Variables a b : list pystr.
Variable b2j : gmap pystr (list nat).

(** [for j in b2j.get(a[i], nothing)] of [find_longest_match] *)
Fixpoint flm_inner (i blo bhi : nat) (j2len : gmap Z nat) (js : list nat)
    (newj2len : gmap Z nat) (best : Match) : gmap Z nat * Match :=
  match js with
  | [] => (newj2len, best)
  | j :: js' =>
      if j <? blo then flm_inner i blo bhi j2len js' newj2len best
      else if bhi <=? j then (newj2len, best)
      else
        let k := default 0 (j2len !! (Z.of_nat j - 1)%Z) + 1 in
        let newj2len := <[Z.of_nat j := k]> newj2len in
        let best := if best.2 <? k then (i + 1 - k, j + 1 - k, k) else best in
        flm_inner i blo bhi j2len js' newj2len best
  end.

(** One turn of [for i in range(alo, ahi)]; [j2len = newj2len] at its end. *)
Definition flm_row (blo bhi : nat) (st : gmap Z nat * Match) (i : nat) :
    gmap Z nat * Match :=
  let js := match a !! i with
            | Some x => default [] (b2j !! x)
            | None => []
            end in
  flm_inner i blo bhi st.1 js ∅ st.2.

(** [while besti > alo and bestj > blo and (not) isbjunk(b[bestj-1]) and
    a[besti-1] == b[bestj-1]]; by recursion on [besti], which the loop
    decrements.  [junk] tells which of the two loops it is. *)
Fixpoint extend_back (junk : bool) (alo blo : nat) (besti bestj bestsize : nat) :
    Match :=
  match besti with
  | O => (besti, bestj, bestsize)
  | S besti' =>
      if (alo <? besti) && (blo <? bestj)
         && eqb (isbjunk (b !! (bestj - 1))) junk
         && elt_eqb (a !! (besti - 1)) (b !! (bestj - 1))
      then extend_back junk alo blo besti' (bestj - 1) (bestsize + 1)
      else (besti, bestj, bestsize)
  end.

(** [while besti+bestsize < ahi and bestj+bestsize < bhi and (not)
    isbjunk(b[bestj+bestsize]) and a[besti+bestsize] == b[bestj+bestsize]];
    [n] bounds the turns by [ahi - (besti+bestsize)]. *)
Fixpoint extend_fwd (junk : bool) (n : nat) (ahi bhi : nat)
    (besti bestj bestsize : nat) : nat :=
  match n with
  | O => bestsize
  | S n' =>
      if (besti + bestsize <? ahi) && (bestj + bestsize <? bhi)
         && eqb (isbjunk (b !! (bestj + bestsize))) junk
         && elt_eqb (a !! (besti + bestsize)) (b !! (bestj + bestsize))
      then extend_fwd junk n' ahi bhi besti bestj (bestsize + 1)
      else bestsize
  end.

Definition extend (junk : bool) (alo ahi blo bhi : nat) (m : Match) : Match :=
  let '(besti, bestj, bestsize) := m in
  let '(besti, bestj, bestsize) := extend_back junk alo blo besti bestj bestsize in
  (besti, bestj,
   extend_fwd junk (ahi - (besti + bestsize)) ahi bhi besti bestj bestsize).

(** [find_longest_match(alo, ahi, blo, bhi)] *)
Definition find_longest_match (alo ahi blo bhi : nat) : Match :=
  let st := foldl (flm_row blo bhi) (∅, (alo, blo, 0)) (seq alo (ahi - alo)) in
  extend true alo ahi blo bhi (extend false alo ahi blo bhi st.2).

(** The [while queue:] loop of [get_matching_blocks].  The queue is kept
    with its last element first ([pop] takes and [append] puts at the
    end).  The result carries the queue left when [fuel] is used up:
    [matching_loop_terminates] shows it empty for the fuel of
    [get_matching_blocks]. *)
Fixpoint matching_loop (fuel : nat) (queue : list (nat * nat * nat * nat))
    (matching_blocks : list Match) : list (nat * nat * nat * nat) * list Match :=
  match fuel with
  | O => (queue, matching_blocks)
  | S fuel' =>
      match queue with
      | [] => ([], matching_blocks)
      | (alo, ahi, blo, bhi) :: queue' =>
          let '(i, j, k) := find_longest_match alo ahi blo bhi in
          match k with
          | O => matching_loop fuel' queue' matching_blocks
          | S _ =>
              let q1 := if (alo <? i) && (blo <? j)
                        then (alo, i, blo, j) :: queue' else queue' in
              let q2 := if (i + k <? ahi) && (j + k <? bhi)
                        then (i + k, ahi, j + k, bhi) :: q1 else q1 in
              matching_loop fuel' q2 (matching_blocks ++ [(i, j, k)])
          end
      end
  end.
End SequenceMatcher.

(** Tuples compare lexicographically. *)
Definition match_leb (x y : Match) : bool :=
  let '(i1, j1, k1) := x in
  let '(i2, j2, k2) := y in
  (i1 <? i2) || ((i1 =? i2) && ((j1 <? j2) || ((j1 =? j2) && (k1 <=? k2)))).

Fixpoint sort_insert (x : Match) (l : list Match) : list Match :=
  match l with
  | [] => [x]
  | y :: l' => if match_leb x y then x :: l else y :: sort_insert x l'
  end.

(** [matching_blocks.sort()] *)
Definition sort_blocks (l : list Match) : list Match :=
  foldr sort_insert [] l.

(** The loop collapsing adjacent blocks, with its final flush. *)
Fixpoint collapse (i1 j1 k1 : nat) (blocks non_adjacent : list Match) : list Match :=
  match blocks with
  | [] => if k1 =? 0 then non_adjacent else non_adjacent ++ [(i1, j1, k1)]
  | (i2, j2, k2) :: rest =>
      if (i1 + k1 =? i2) && (j1 + k1 =? j2) then
        collapse i1 j1 (k1 + k2) rest non_adjacent
      else
        collapse i2 j2 k2 rest
          (if k1 =? 0 then non_adjacent else non_adjacent ++ [(i1, j1, k1)])
  end.

Definition matching_fuel (a : list pystr) : nat := 2 * length a + 1.

(** [get_matching_blocks()] *)
Definition get_matching_blocks (a b : list pystr) : list Match :=
  let la := length a in
  let lb := length b in
  let blocks :=
    (matching_loop a b (chain_b b) (matching_fuel a) [(0, la, 0, lb)] []).2 in
  collapse 0 0 0 (sort_blocks blocks) [] ++ [(la, lb, 0)].

(** The loop of [get_opcodes()] *)
Fixpoint opcodes_from (i j : nat) (blocks : list Match) : list opcode :=
  match blocks with
  | [] => []
  | (ai, bj, size) :: rest =>
      let change :=
        if (i <? ai) && (j <? bj) then [(Replace, i, ai, j, bj)]
        else if i <? ai then [(Delete, i, ai, j, bj)]
        else if j <? bj then [(Insert, i, ai, j, bj)]
        else [] in
      change
      ++ (if size =? 0 then [] else [(Equal, ai, ai + size, bj, bj + size)])
      ++ opcodes_from (ai + size) (bj + size) rest
  end.

Definition get_opcodes (a b : list pystr) : list opcode :=
  opcodes_from 0 0 (get_matching_blocks a b).

(** [codes[0] = ...] and [codes[-1] = ...] of [get_grouped_opcodes] *)
Definition fix_first (n : nat) (codes : list opcode) : list opcode :=
  match codes with
  | (Equal, i1, i2, j1, j2) :: rest =>
      (Equal, i1 `max` (i2 - n), i2, j1 `max` (j2 - n), j2) :: rest
  | _ => codes
  end.

Fixpoint fix_last (n : nat) (codes : list opcode) : list opcode :=
  match codes with
  | [] => []
  | c :: rest =>
      match rest with
      | [] =>
          match c with
          | (Equal, i1, i2, j1, j2) =>
              [(Equal, i1, i2 `min` (i1 + n), j1, j2 `min` (j1 + n))]
          | _ => [c]
          end
      | _ :: _ => c :: fix_last n rest
      end
  end.

(** The generator loop of [get_grouped_opcodes], with its final [yield]. *)
Fixpoint group_loop (n : nat) (codes : list opcode) (group : list opcode) :
    list (list opcode) :=
  match codes with
  | [] =>
      match group with
      | [] => []
      | [(Equal, _, _, _, _)] => []
      | _ => [group]
      end
  | (t, i1, i2, j1, j2) :: rest =>
      if is_equal t && (n + n <? i2 - i1) then
        (group ++ [(t, i1, i2 `min` (i1 + n), j1, j2 `min` (j1 + n))])
        :: group_loop n rest [(t, i1 `max` (i2 - n), i2, j1 `max` (j2 - n), j2)]
      else group_loop n rest (group ++ [(t, i1, i2, j1, j2)])
  end.

(** [get_grouped_opcodes(n)] *)
Definition get_grouped_opcodes (a b : list pystr) (n : nat) : list (list opcode) :=
  let codes := get_opcodes a b in
  let codes := match codes with [] => [(Equal, 0, 1, 0, 1)] | _ => codes end in
  group_loop n (fix_last n (fix_first n codes)) [].

(** ** [difflib.unified_diff] *)

(** The spec's edit script: one operation per content line of the diff. *)
Inductive op_kind := ADD | REMOVE | CONTEXT.

#[global] Instance op_kind_eq_dec : EqDecision op_kind.
Proof. solve_decision. Defined.

Definition EditOp : Type := op_kind * pystr.

(** [l[i1:i2]] for [i1 <= i2] *)
Definition slice {A} (l : list A) (i1 i2 : nat) : list A :=
  take (i2 - i1) (drop i1 l).

(** The body of [for tag, i1, i2, j1, j2 in group]. *)
Definition opcode_ops (a b : list pystr) (c : opcode) : list EditOp :=
  let '(t, i1, i2, j1, j2) := c in
  match t with
  | Equal => pair CONTEXT <$> slice a i1 i2
  | Replace => (pair REMOVE <$> slice a i1 i2) ++ (pair ADD <$> slice b j1 j2)
  | Delete => pair REMOVE <$> slice a i1 i2
  | Insert => pair ADD <$> slice b j1 j2
  end.

Definition group_ops (a b : list pystr) (group : list opcode) : list EditOp :=
  concat (opcode_ops a b <$> group).

Definition op_prefix (k : op_kind) : N :=
  match k with
  | ADD => 0x2B          (* + *)
  | REMOVE => 0x2D       (* - *)
  | CONTEXT => 0x20      (* space *)
  end.

(** [' ' + line], ['-' + line], ['+' + line] *)
Definition op_line (o : EditOp) : pystr := op_prefix o.1 :: o.2.

(** [_format_range_unified(start, stop)] *)
Definition format_range_unified (start stop : nat) : pystr :=
  let beginning := start + 1 in
  let length := stop - start in
  if length =? 1 then str_of_nat beginning
  else
    let beginning := if length =? 0 then beginning - 1 else beginning in
    str_of_nat beginning ++ py "," ++ str_of_nat length.

(** The [@@ -r1 +r2 @@] line of a group, then its content lines. *)
Definition hunk_lines (a b : list pystr) (lineterm : pystr) (group : list opcode) :
    list pystr :=
  match group, last group with
  | first :: _, Some lst =>
      let '(_, f1, _, f3, _) := first in
      let '(_, _, l2, _, l4) := lst in
      (py "@@ -" ++ format_range_unified f1 l2 ++ py " +"
         ++ format_range_unified f3 l4 ++ py " @@" ++ lineterm)
      :: (op_line <$> group_ops a b group)
  | _, _ => []
  end.

(** [unified_diff(a, b, fromfile, tofile, lineterm=lineterm)] with the
    default [n=3] and no file dates: nothing at all when there is no group,
    else the two-line preamble and the hunks. *)
Definition unified_diff (a b : list pystr) (fromfile tofile lineterm : pystr) :
    list pystr :=
  match get_grouped_opcodes a b 3 with
  | [] => []
  | groups =>
      (py "--- " ++ fromfile ++ lineterm)
      :: (py "+++ " ++ tofile ++ lineterm)
      :: concat (hunk_lines a b lineterm <$> groups)
  end.

(** The spec's [compute_diff]: the operations of all groups, in order. *)
Definition compute_diff (a b : list pystr) : list EditOp :=
  concat (group_ops a b <$> get_grouped_opcodes a b 3).

Definition count_ops (k : op_kind) (script : list EditOp) : nat :=
  length (filter (λ o, o.1 = k) script).

(** ** Floats: [int / int] and [round(x, 2)] *)

(** The correctly rounded quotient of two non-negative integers, by the
    executable specification of IEEE-754 division ([SFdiv]) at binary64. *)
Definition SF_of_N (n : N) : spec_float :=
  match n with
  | N0 => S754_zero false
  | Npos p => S754_finite false p 0
  end.

Definition nearest_quotient (x y : N) : float :=
  SF2Prim (SFdiv prec emax (SF_of_N x) (SF_of_N y)).

(** [x / y] on non-negative [int]s: true division, correctly rounded.  The
    divisor of [feature_4] is never 0. *)
Definition int_truediv (x y : nat) : float :=
  nearest_quotient (N.of_nat x) (N.of_nat y).

(** [n / d] rounded to the nearest integer, ties to the even one. *)
Definition div_half_even (n d : Z) : Z :=
  let q := (n / d)%Z in
  match (2 * (n mod d) ?= d)%Z with
  | Lt => q
  | Gt => (q + 1)%Z
  | Eq => if Z.even q then q else (q + 1)%Z
  end.

(** [round(x, 2)]: CPython prints the exact binary value of [x] with two
    decimals, correctly rounded (ties to even), and reads that decimal back
    as the nearest float.  A float with a non-negative exponent is an
    integer and is its own rounding. *)
Definition round2 (x : float) : float :=
  match Prim2SF x with
  | S754_finite s m e =>
      if (0 <=? e)%Z then x
      else
        let h := div_half_even (Z.pos m * 100) (2 ^ (- e)) in
        let r := nearest_quotient (Z.to_N h) 100 in
        if s then (- r)%float else r
  | _ => x
  end.

(** ** The change metrics of [feature_4] *)

Record ChangeMetrics := {
  lines_added : nat;
  lines_removed : nat;
  percent_change : float;
  code_blocks_changed : Z
}.

(** [sum(1 for l in lines if l.startswith(mark) and not l.startswith(header))] *)
Definition count_marked (mark header : pystr) (lines : list pystr) : nat :=
  length (filter (λ l, startswith l mark && negb (startswith l header)) lines).

(** [len(old_lines) or 1] *)
Definition len_or_1 (n : nat) : nat := if n =? 0 then 1 else n.

(** [round(((lines_added + lines_removed) / total_lines) * 100, 2)] *)
Definition percent_of (added removed total_lines : nat) : float :=
  round2 (int_truediv (added + removed) total_lines * 100)%float.

(** The percentage in the words of C1,
    [round(100 * (lines_added + lines_removed) / max(1, n), 2)] for [n] old
    lines: the product is an [int], the quotient its true division. *)
Definition percent_as_stated (added removed old_lines : nat) : float :=
  round2 (int_truediv (100 * (added + removed)) (1 `max` old_lines)).

(** [full_diff_text = '\n'.join(difflib.unified_diff(old_lines, new_lines,
    fromfile=old_page_title, tofile=new_page_title, lineterm=''))] *)
Definition full_diff_text (old_page_title new_page_title old_code new_code : pystr) :
    pystr :=
  join [LF] (unified_diff (splitlines old_code) (splitlines new_code)
               old_page_title new_page_title []).

(** Lines 649-658: the metrics of one pair of texts. *)
Definition change_metrics (old_page_title new_page_title old_code new_code : pystr) :
    ChangeMetrics :=
  let old_lines := splitlines old_code in
  let diff_lines :=
    splitlines (full_diff_text old_page_title new_page_title old_code new_code) in
  let added := count_marked (py "+") (py "+++") diff_lines in
  let removed := count_marked (py "-") (py "---") diff_lines in
  let total_lines := len_or_1 (length old_lines) in
  {| lines_added := added;
     lines_removed := removed;
     percent_change := percent_of added removed total_lines;
     code_blocks_changed :=
       Z.abs (Z.of_nat (count_char LF old_code) / 5
              - Z.of_nat (count_char LF new_code) / 5) |}.

(** ** Severity tagging of the risk text *)

(** [[0-9A-Za-z_]] *)
Definition ascii_word (c : N) : bool :=
  (((0x30 <=? c) && (c <=? 0x39)) || ((0x41 <=? c) && (c <=? 0x5A))
   || ((0x61 <=? c) && (c <=? 0x7A)) || (c =? 0x5F))%N.

Section Severity.
(** [str.isalnum] above 0x7F: Unicode's table, not part of the program. *)
Variable unicode_alnum : N → bool.

Local Open Scope N_scope.

(** [\w] of a [str] pattern: alphanumeric or underscore. *)
Definition is_word (c : option N) : bool :=
  match c with
  | None => false
  | Some c => if c <=? 0x7F then ascii_word c else unicode_alnum c
  end.

(** [\b] between two neighbours ([None] outside the text). *)
Definition word_boundary (before after : option N) : bool :=
  xorb (is_word before) (is_word after).

(** [\b] then the literal [token] then [\b], anchored at the head of [s]. *)
Definition match_token (prev : option N) (s token : pystr) : option nat :=
  if word_boundary prev (head s) && startswith s token
     && word_boundary (last token) (head (drop (length token) s))
  then Some (length token) else None.

(** [\b(Low|Medium|High)\b]: the alternatives in order. *)
Definition pat_severity (prev : option N) (s : pystr) : option nat :=
  match match_token prev s (py "Low") with
  | Some n => Some n
  | None =>
      match match_token prev s (py "Medium") with
      | Some n => Some n
      | None => match_token prev s (py "High")
      end
  end.

(** The markers: green, yellow and red circle. *)
Definition marker_low : N := 0x1F7E2.
Definition marker_medium : N := 0x1F7E1.
Definition marker_high : N := 0x1F534.

(** The [lambda m: {...}[m.group(0)]] of the substitution. *)
Definition severity_repl (matched : pystr) : pystr :=
  if bool_decide (matched = py "Low") then marker_low :: py " Low"
  else if bool_decide (matched = py "Medium") then marker_medium :: py " Medium"
  else marker_high :: py " High".

(** [re.sub(r'\b(Low|Medium|High)\b', lambda ..., raw_risk)] *)
Definition tag_severity (raw_risk : pystr) : pystr :=
  re_sub pat_severity severity_repl None 0 raw_risk.
End Severity.

(** ** The session, the model and the pipeline *)

(** What a call evaluates to: a value, or an exception of class
    [Exception] with its message [str(e)].  Every handler of [feature_4] is
    an [except Exception]; what such a handler does not catch
    ([KeyboardInterrupt], [SystemExit]) is not modelled. *)
Inductive outcome (A : Type) :=
  | Returned (x : A)
  | Raised (e : pystr).
Arguments Returned {A} x.
Arguments Raised {A} e.

(** What [feature_4] puts on the page, of the calls modelled here. *)
Inductive widget :=
  | Dashboard (m : ChangeMetrics)
  | Markdown (t : pystr)
  | Warning (t : pystr)
  | Error (t : pystr).

(** The state a run works on: [st.session_state] (which outlives the run),
    the prompts passed to [model.generate_content] so far, the seconds
    spent in [time.sleep], and the page. *)
Record world := {
  session_state : gmap string pystr;
  calls : list pystr;
  slept : nat;
  screen : list widget
}.

(** Computations that read and write the world and may raise. *)
Definition M (A : Type) : Type := world → outcome A * world.

Definition ret {A} (x : A) : M A := λ w, (Returned x, w).

Definition bind {A B} (m : M A) (f : A → M B) : M B :=
  λ w, match m w with
       | (Returned x, w') => f x w'
       | (Raised e, w') => (Raised e, w')
       end.

Notation "'do' x <- m 'in' f" := (bind m (λ x, f))
  (at level 10, x name, m at level 100, f at level 200).

(** [try: body except Exception as e: handler(e)] *)
Definition try_except {A} (body : M A) (handler : pystr → M A) : M A :=
  λ w, match body w with
       | (Returned x, w') => (Returned x, w')
       | (Raised e, w') => handler e w'
       end.

Definition when (c : bool) (m : M unit) : M unit := if c then m else ret tt.

Definition show (x : widget) : M unit :=
  λ w, (Returned tt,
        {| session_state := session_state w; calls := calls w;
           slept := slept w; screen := screen w ++ [x] |}).

(** [time.sleep(n)] *)
Definition time_sleep (n : nat) : M unit :=
  λ w, (Returned tt,
        {| session_state := session_state w; calls := calls w;
           slept := slept w + n; screen := screen w |}).

(** [key in st.session_state] *)
Definition session_has (key : string) : M bool :=
  λ w, (Returned (bool_decide (is_Some (session_state w !! key))), w).

(** [st.session_state.key], read after it was set. *)
Definition session_get (key : string) : M pystr :=
  λ w, (Returned (default [] (session_state w !! key)), w).

(** [st.session_state.key = v] *)
Definition session_set (key : string) (v : pystr) : M unit :=
  λ w, (Returned tt,
        {| session_state := <[key := v]> (session_state w); calls := calls w;
           slept := slept w; screen := screen w |}).

Definition nonempty (s : pystr) : bool :=
  match s with [] => false | _ :: _ => true end.

Section Feature4.
Variable unicode_alnum : N → bool.

(** [str(x)] of a float: CPython's shortest [repr], not part of the
    program. *)
Variable float_str : float → pystr.

(** The generative model: what [model.generate_content(prompt).text.strip()]
    evaluates to at the call number [n] (counted from 0) on [prompt]: a
    text, or an exception. *)
Variable model : nat → pystr → outcome pystr.

Definition generate_content (prompt : pystr) : M pystr :=
  λ w, (model (length (calls w)) prompt,
        {| session_state := session_state w; calls := calls w ++ [prompt];
           slept := slept w; screen := screen w |}).

Definition fallback_prompt : pystr :=
  py "Explain this code change or answer a general question about code quality.".

(** The prompt of the last call of a [safe_generate] on [p] that saw [k]
    attempts fail: [p] again, or the fallback after three failures. *)
Definition last_prompt (k : nat) (p : pystr) : pystr :=
  if bool_decide (k < 3) then p else fallback_prompt.

(** [for i in range(retries)] of [safe_generate], from turn [i] with [n]
    turns left; [None] when the loop ends without a [return]. *)
Fixpoint attempts (prompt : pystr) (i n : nat) : M (option pystr) :=
  match n with
  | O => ret None
  | S n' =>
      try_except
        (do t <- generate_content prompt in ret (Some t))
        (λ e,
          do _ <- show (Warning (py "Retry " ++ str_of_nat (i + 1) ++ py " failed: " ++ e)) in
          do _ <- time_sleep 2 in
          attempts prompt (i + 1) n')
  end.

(** [safe_generate(prompt, retries)] *)
Definition safe_generate_with (prompt : pystr) (retries : nat) : M pystr :=
  let prompt := clean_and_truncate_prompt prompt in
  do r <- attempts prompt 0 retries in
  match r with
  | Some t => ret t
  | None =>
      do _ <- show (Warning (py "Using fallback response due to repeated errors.")) in
      generate_content fallback_prompt
  end.

(** [safe_generate(prompt)], with the default [retries=3] *)
Definition safe_generate (prompt : pystr) : M pystr :=
  safe_generate_with prompt 3.

(** What a run of [feature_4] is given: the two selected titles, the code
    [get_code_from_selection] returned for them, and the content of the
    question box. *)
Record request := {
  old_page_title : pystr;
  new_page_title : pystr;
  old_code : pystr;
  new_code : pystr;
  user_question_input : pystr
}.

Definition impact_prompt (safe_diff : pystr) : pystr :=
  py "Analyze this code diff and explain the impact:" ++ [LF; LF] ++ safe_diff.

Definition rec_prompt (safe_diff : pystr) : pystr :=
  py "As a senior engineer, suggest improvements for this diff:"
  ++ [LF; LF] ++ safe_diff.

Definition risk_prompt (safe_diff : pystr) : pystr :=
  py "Assess the risk of each change in this code diff with severity tags (Low, Medium, High):"
  ++ [LF; LF] ++ safe_diff.

Definition qa_context (impact rec risk : pystr) (m : ChangeMetrics) : pystr :=
  py "Summary: " ++ take 1000 impact ++ [LF]
  ++ py "Recommendations: " ++ take 1000 rec ++ [LF]
  ++ py "Risks: " ++ take 1000 risk ++ [LF]
  ++ py "Changes: +" ++ str_of_nat (lines_added m)
  ++ py ", -" ++ str_of_nat (lines_removed m)
  ++ py ", ~" ++ float_str (percent_change m) ++ py "%".

Definition qa_prompt (context question : pystr) : pystr :=
  py "You are an expert AI assistant. Based on the report below, answer the user's question clearly."
  ++ [LF; LF] ++ context ++ [LF; LF] ++ py "Question: " ++ question
  ++ [LF; LF] ++ py "Answer:".

(** [if key not in st.session_state: st.session_state[key] = value] *)
Definition cached (key : string) (value : M pystr) : M unit :=
  do has <- session_has key in
  when (negb has) (do t <- value in session_set key t).

(** Lines 670-684: the three narratives, each generated only when its key
    is not in the session. *)
Definition narratives (safe_diff : pystr) : M unit :=
  do _ <- cached "impact_text" (safe_generate (impact_prompt safe_diff)) in
  do _ <- cached "rec_text" (safe_generate (rec_prompt safe_diff)) in
  cached "risk_text"
    (do raw_risk <- safe_generate (risk_prompt safe_diff) in
     ret (tag_severity unicode_alnum raw_risk)).

(** Lines 693-710: the follow-up question. *)
Definition follow_up (m : ChangeMetrics) (question : pystr) : M unit :=
  do _ <- cached "user_question" (ret []) in
  do _ <- cached "qa_answer" (ret []) in
  do asked <- session_get "user_question" in
  do _ <- when (nonempty question && negb (bool_decide (question = asked)))
    (do _ <- session_set "user_question" question in
     do impact <- session_get "impact_text" in
     do rec <- session_get "rec_text" in
     do risk <- session_get "risk_text" in
     do answer <- safe_generate
                    (qa_prompt (qa_context impact rec risk m) question) in
     session_set "qa_answer" answer) in
  do answer <- session_get "qa_answer" in
  when (nonempty answer) (show (Markdown answer)).

(** Lines 648-710: the analysis of one pair of texts. *)
Definition analysis (rq : request) : M unit :=
  when (nonempty (old_code rq) && nonempty (new_code rq))
    (let full_diff_text :=
       full_diff_text (old_page_title rq) (new_page_title rq)
         (old_code rq) (new_code rq) in
     let safe_diff := clean_and_truncate_prompt full_diff_text in
     let m := change_metrics (old_page_title rq) (new_page_title rq)
                (old_code rq) (new_code rq) in
     do _ <- show (Dashboard m) in
     do _ <- narratives safe_diff in
     do _ <- (do impact <- session_get "impact_text" in show (Markdown impact)) in
     do _ <- (do rec <- session_get "rec_text" in show (Markdown rec)) in
     do _ <- (do risk <- session_get "risk_text" in show (Markdown risk)) in
     follow_up m (user_question_input rq)).

(** One run of the script through [feature_4], lines 640-752: a fresh
    page, the session kept. *)
Definition feature_4 (rq : request) : M unit :=
  λ w,
    let w := {| session_state := session_state w; calls := calls w;
                slept := slept w; screen := [] |} in
    when (nonempty (old_page_title rq) && nonempty (new_page_title rq))
      (try_except (analysis rq) (λ e, show (Error (py "Error: " ++ e)))) w.

(** The metrics a run put on the page, if any. *)
Definition shown_metrics (w : world) : option ChangeMetrics :=
  head (omap (λ x, match x with Dashboard m => Some m | _ => None end) (screen w)).
End Feature4.

(** A session before the first run. *)
Definition fresh : world :=
  {| session_state := ∅; calls := []; slept := 0; screen := [] |}.

(** ** Stand-ins for the collaborators, for concrete runs *)

(** A Unicode table with no alphanumeric above 0x7F. *)
Definition ascii_alnum : N → bool := λ _, false.

(** A float printer that prints nothing. *)
Definition blank_float_str : float → pystr := λ _, [].

(** A model that answers every prompt with the prompt itself. *)
Definition echo_model : nat → pystr → outcome pystr := λ _ p, Returned p.

(** A model that is down: every call raises. *)
Definition down_model : nat → pystr → outcome pystr :=
  λ _ _, Raised (py "unavailable").

(** A model that raises at the call numbered [k] and echoes otherwise. *)
Definition flaky_model (k : nat) : nat → pystr → outcome pystr :=
  λ n p, if n =? k then Raised (py "unavailable") else Returned p.

(** [a\nb\nc] and [a\nx\nc\nd] *)
Definition text_abc : pystr := [0x61; 0x0A; 0x62; 0x0A; 0x63]%N.
Definition text_axcd : pystr := [0x61; 0x0A; 0x78; 0x0A; 0x63; 0x0A; 0x64]%N.

(** [n] lines [a]. *)
Definition lines_a (n : nat) : pystr := join [LF] (replicate n (py "a")).

Definition request_of (old new question : pystr) : request :=
  {| old_page_title := py "old"; new_page_title := py "new";
     old_code := old; new_code := new; user_question_input := question |}.

(** * Properties *)

#[local] Arguments pat_tag : simpl never.
#[local] Arguments pat_non_ascii : simpl never.

(** ** The prompt sanitizer *)

(** Python's [string.printable] within 7 bits: space to tilde and the five
    ASCII whitespace controls. *)
Definition printable7 (c : N) : Prop :=
  (0x20 ≤ c ∧ c ≤ 0x7E)%N ∨ c ∈ [0x09; 0x0A; 0x0B; 0x0C; 0x0D]%N.

(** No suffix of the text starts with a match of [<[^>]+>]. *)
Fixpoint tag_free (s : pystr) : bool :=
  match s with
  | [] => true
  | _ :: s' => bool_decide (pat_tag None s = None) && tag_free s'
  end.

Lemma span_while_le p s : span_while p s ≤ length s.
Proof. induction s as [|c s IH]; simpl; [lia|]. destruct (p c); simpl; lia. Qed.

Lemma span_while_all p s :
  Forall (λ c, p c = true) s → span_while p s = length s.
Proof.
  induction 1 as [|c s Hc _ IH]; simpl; [done|]. by rewrite Hc, IH.
Qed.

Lemma span_while_stop p s :
  span_while p s < length s → ∃ c, s !! span_while p s = Some c ∧ p c = false.
Proof.
  induction s as [|c s IH]; simpl; [lia|].
  destruct (p c) eqn:Hc; simpl; intros Hlt.
  - apply IH. lia.
  - by exists c.
Qed.

(** When [<] starts no match: nothing follows it, or [>] does at once, or no
    [>] follows at all. *)
Definition opens_no_tag (t : pystr) : Prop :=
  t = [] ∨ head t = Some GT ∨ GT ∉ t.

Lemma span_while_drop_nil p t :
  drop (span_while p t) t = [] ↔ Forall (λ c, p c = true) t.
Proof.
  induction t as [|c t IH]; simpl; [done|].
  destruct (p c) eqn:Hc; simpl.
  - rewrite IH. split; [by constructor|by inversion 1].
  - split; [done|]. inversion 1; congruence.
Qed.

Lemma not_gt_all t :
  Forall (λ c, negb (c =? GT)%N = true) t ↔ GT ∉ t.
Proof.
  rewrite Forall_forall. split.
  - intros H Hin. specialize (H _ Hin). by rewrite N.eqb_refl in H.
  - intros H c Hin. destruct (N.eqb_spec c GT) as [->|_]; done.
Qed.

Lemma pat_tag_lt_None prev t :
  pat_tag prev (LT :: t) = None ↔ opens_no_tag t.
Proof.
  unfold pat_tag, opens_no_tag. rewrite N.eqb_refl.
  destruct t as [|c t]; [naive_solver|]. simpl span_while.
  destruct (N.eqb_spec c GT) as [->|Hc]; simpl; [naive_solver|].
  destruct (drop _ t) as [|d r] eqn:Hd.
  - apply span_while_drop_nil, not_gt_all in Hd. split; [intros _|done].
    right. right. by apply not_elem_of_cons.
  - split; [done|]. intros [?|[[=]|[_ Hn]%not_elem_of_cons]]; [done..|].
    apply not_gt_all, span_while_drop_nil in Hn. congruence.
Qed.

Lemma pat_tag_pos prev s : pat_tag prev s ≠ Some 0.
Proof.
  unfold pat_tag. destruct s as [|c s]; [done|].
  destruct (c =? LT)%N; [|done].
  destruct (span_while _ s); [done|]. by destruct (drop _ s).
Qed.

Lemma pat_tag_other prev c t : c ≠ LT → pat_tag prev (c :: t) = None.
Proof. intros Hc. unfold pat_tag. by destruct (N.eqb_spec c LT). Qed.

Lemma has_tag_not_free s : has_tag s → tag_free s = false.
Proof.
  intros (pre & body & post & -> & Hne & Hgt).
  induction pre as [|c pre IH]; simpl.
  - apply andb_false_intro1, bool_decide_eq_false.
    rewrite pat_tag_lt_None. destruct body as [|d body]; [done|].
    apply not_elem_of_cons in Hgt as [Hd _].
    intros [?|[[= ?]|Hn]]; [done..|]. apply Hn. set_solver.
  - simpl in IH. rewrite IH. apply andb_false_r.
Qed.

(** A substitution by the empty string only deletes characters. *)
Lemma re_sub_delete_sublist pat prev k s :
  re_sub pat (λ _, []) prev k s `sublist_of` s.
Proof.
  revert prev k. induction s as [|c s IH]; intros prev k; simpl; [done|].
  destruct k as [|k].
  - destruct (pat prev (c :: s)) as [[|n]|].
    + by apply sublist_skip.
    + simpl. by apply sublist_cons.
    + by apply sublist_skip.
  - by apply sublist_cons.
Qed.

Lemma sublist_opens_no_tag (t t' : pystr) :
  opens_no_tag t → t' `sublist_of` t → (head t = Some GT → head t' = Some GT ∨ t' = []) →
  opens_no_tag t'.
Proof.
  intros [->|[Hh|Hn]] Hsub Hhead.
  - left. by apply sublist_nil_r.
  - destruct (Hhead Hh); [right; by left|by left].
  - right. right. intros Hin. apply Hn. by eapply elem_of_sublist.
Qed.

Lemma tag_removal_free prev k s :
  tag_free (re_sub pat_tag (λ _, []) prev k s) = true.
Proof.
  revert prev k. induction s as [|c s IH]; intros prev k; simpl; [done|].
  destruct k as [|k]; [|apply IH].
  destruct (pat_tag prev (c :: s)) as [[|n]|] eqn:Hp; [|apply IH|].
  - by apply pat_tag_pos in Hp.
  - simpl tag_free at 1. apply andb_true_intro. split; [|apply IH].
    apply bool_decide_eq_true.
    destruct (decide (c = LT)) as [->|Hc]; [|by apply pat_tag_other].
    apply pat_tag_lt_None. apply pat_tag_lt_None in Hp.
    eapply sublist_opens_no_tag; [done|apply re_sub_delete_sublist|].
    destruct s as [|d s]; [done|]. intros [= ->]. by left.
Qed.

(** Deleting the runs above 0x7F is filtering them out. *)
Lemma non_ascii_removal_filter prev k s :
  k ≤ span_while (λ x, 0x7F <? x)%N s →
  re_sub pat_non_ascii (λ _, []) prev k s = filter (λ c, (c ≤ 0x7F)%N) s.
Proof.
  revert prev k. induction s as [|c s IH]; intros prev k Hk; simpl; [done|].
  simpl in Hk. unfold pat_non_ascii. simpl span_while.
  destruct (N.ltb_spec 0x7F c) as [Hc|Hc].
  - rewrite filter_cons_False by lia.
    destruct k as [|k]; simpl; apply IH; lia.
  - rewrite filter_cons_True by lia.
    assert (k = 0) as -> by lia. f_equal. apply IH. lia.
Qed.

Lemma tag_free_filter (P : N → Prop) `{!∀ c, Decision (P c)} s :
  P GT → tag_free s = true → tag_free (filter P s) = true.
Proof.
  intros HGT. induction s as [|c s IH]; [done|].
  simpl tag_free at 1. intros [Hc Hs]%andb_true_iff.
  apply bool_decide_eq_true in Hc. specialize (IH Hs).
  destruct (decide (P c)); [rewrite filter_cons_True by done
                           |by rewrite filter_cons_False by done].
  simpl. apply andb_true_intro. split; [|done]. apply bool_decide_eq_true.
  destruct (decide (c = LT)) as [->|Hne]; [|by apply pat_tag_other].
  apply pat_tag_lt_None. apply pat_tag_lt_None in Hc.
  eapply sublist_opens_no_tag; [done|apply sublist_filter|].
  destruct s as [|d s]; [done|]. intros [= ->]. left.
  by rewrite filter_cons_True.
Qed.

Lemma tag_free_take n s : tag_free s = true → tag_free (take n s) = true.
Proof.
  revert n. induction s as [|c s IH]; intros [|n]; try done.
  simpl tag_free at 1. intros [Hc Hs]%andb_true_iff.
  apply bool_decide_eq_true in Hc.
  simpl. apply andb_true_intro. split; [|by apply IH].
  apply bool_decide_eq_true.
  destruct (decide (c = LT)) as [->|Hne]; [|by apply pat_tag_other].
  apply pat_tag_lt_None. apply pat_tag_lt_None in Hc.
  eapply sublist_opens_no_tag; [done|apply sublist_take|].
  destruct s as [|d s]; [done|]. intros [= ->]. destruct n; [by right|by left].
Qed.

(** What the sanitizer's result is like. *)
Lemma sanitized (text : pystr) :
  length (clean_and_truncate_prompt text) ≤ MAX_CHARS
  ∧ Forall seven_bit (clean_and_truncate_prompt text)
  ∧ ¬ has_tag (clean_and_truncate_prompt text).
Proof.
  unfold clean_and_truncate_prompt, clean_and_truncate_prompt_at.
  rewrite non_ascii_removal_filter by lia.
  split; [|split].
  - rewrite length_take. lia.
  - apply Forall_take, Forall_forall. by intros c [Hc _]%list_elem_of_filter.
  - intros Ht%has_tag_not_free.
    rewrite tag_free_take in Ht; [done|].
    apply tag_free_filter; [done|apply tag_removal_free].
Qed.

(** C7, as the code has it: the sanitizer's result is at most [MAX_CHARS]
    (10,000) characters long, holds only 7-bit characters (the controls
    below 0x20 and 0x7F are kept) and no markup tag [<...>]. *)
Theorem clean_and_truncate_prompt_result (text : pystr) :
  length (clean_and_truncate_prompt text) ≤ MAX_CHARS
  ∧ Forall seven_bit (clean_and_truncate_prompt text)
  ∧ ¬ has_tag (clean_and_truncate_prompt text).
Proof. exact (sanitized text). Qed.

(** C7, as stated, fails: a control character (here BEL, 0x07) passes the
    sanitizer, so its result is not always printable. *)
Lemma clean_and_truncate_prompt_keeps_control :
  ¬ Forall printable7 (clean_and_truncate_prompt (py "a" ++ [0x07%N])).
Proof.
  assert (clean_and_truncate_prompt (py "a" ++ [0x07%N]) = [0x61; 0x07]%N) as ->
    by (vm_compute; reflexivity).
  intros H. apply Forall_cons in H as [_ H]. apply Forall_cons in H as [[H|H] _].
  - lia.
  - repeat (apply elem_of_cons in H as [H|H]; [done|]). by apply elem_of_nil in H.
Qed.

(** ** Lines and newline characters *)

Lemma splitlines_nonempty (s : pystr) : s ≠ [] → 1 ≤ length (splitlines s).
Proof.
  destruct s as [|c s]; [done|]. intros _. simpl.
  destruct (is_linebreak c); [simpl; lia|].
  destruct (splitlines s); simpl; lia.
Qed.

Lemma len_or_1_max (n : nat) : len_or_1 n = 1 `max` n.
Proof. unfold len_or_1. destruct n; simpl; lia. Qed.

(** A text whose only line boundaries are [\n]. *)
Definition only_lf (s : pystr) : Prop :=
  Forall (λ c, is_linebreak c = true → c = LF) s.

(** 1 for a non-empty text that does not end with [\n], else 0. *)
Definition unterminated (s : pystr) : nat :=
  match last s with
  | Some c => if (c =? LF)%N then 0 else 1
  | None => 0
  end.

Lemma splitlines_nil_inv (s : pystr) : splitlines s = [] → s = [].
Proof.
  destruct s as [|c s]; [done|]. simpl.
  destruct (is_linebreak c); [done|]. by destruct (splitlines s).
Qed.

Lemma count_lf_lines (s : pystr) :
  only_lf s → length (splitlines s) = count_char LF s + unterminated s.
Proof.
  unfold count_char, unterminated.
  induction s as [|c s IH]; [done|]. intros [Hc Hs]%Forall_cons.
  specialize (IH Hs). simpl splitlines.
  destruct (is_linebreak c) eqn:Hbr.
  - rewrite (Hc eq_refl) in *. rewrite filter_cons_True by done.
    destruct s as [|d s]; [done|].
    replace ((LF =? CR)%N) with false by done. simpl andb. cbv iota.
    rewrite !length_cons, IH, last_cons_cons. done.
  - assert (c ≠ LF) as Hne by (by intros ->).
    rewrite filter_cons_False by done.
    destruct s as [|d s].
    + simpl. by destruct (N.eqb_spec c LF).
    + rewrite last_cons_cons.
      destruct (splitlines (d :: s)) as [|l ls] eqn:Hsp.
      * by apply splitlines_nil_inv in Hsp.
      * simpl in *. lia.
Qed.

(** C5, as the code has it: [code_blocks_changed] is computed from the
    numbers of [\n] characters of the two texts, not from their numbers of
    lines; in a text with no other line boundary, the number of [\n] is the
    number of lines when the text ends with [\n] and one less when it does
    not. *)
Theorem code_blocks_changed_newlines (t1 t2 old new : pystr) :
  code_blocks_changed (change_metrics t1 t2 old new)
  = Z.abs (Z.of_nat (count_char LF old) / 5 - Z.of_nat (count_char LF new) / 5)
  ∧ (only_lf old →
     count_char LF old = length (splitlines old) - unterminated old)
  ∧ (only_lf new →
     count_char LF new = length (splitlines new) - unterminated new).
Proof.
  split; [done|]. split; intros H%count_lf_lines; lia.
Qed.

(** C5, as stated, fails: five lines without a final newline against one
    line count as 0 blocks, where the numbers of lines give 1. *)
Lemma code_blocks_changed_not_lines :
  let old := [0x61; 0x0A; 0x62; 0x0A; 0x63; 0x0A; 0x64; 0x0A; 0x65]%N in
  let new := py "a" in
  code_blocks_changed (change_metrics (py "old") (py "new") old new) = 0%Z
  ∧ Z.abs (Z.of_nat (length (splitlines old)) / 5
           - Z.of_nat (length (splitlines new)) / 5) = 1%Z.
Proof. split; vm_compute; reflexivity. Qed.

(** ** The page only grows within a run *)

(** [m] leaves the earlier widgets in place, whatever its outcome. *)
Definition appends {A} (m : M A) : Prop :=
  ∀ w, ∃ l, screen (m w).2 = screen w ++ l.

Lemma appends_ret {A} (x : A) : appends (ret x).
Proof. intros w. exists []. simpl. by rewrite app_nil_r. Qed.

Lemma appends_bind {A B} (m : M A) (f : A → M B) :
  appends m → (∀ x, appends (f x)) → appends (bind m f).
Proof.
  intros Hm Hf w. unfold bind. destruct (Hm w) as [l Hl].
  destruct (m w) as [[x|e] w1]; simpl in *; [|by exists l].
  destruct (Hf x w1) as [l' Hl']. exists (l ++ l').
  by rewrite Hl', Hl, app_assoc.
Qed.

Lemma appends_try_except {A} (m : M A) (h : pystr → M A) :
  appends m → (∀ e, appends (h e)) → appends (try_except m h).
Proof.
  intros Hm Hh w. unfold try_except. destruct (Hm w) as [l Hl].
  destruct (m w) as [[x|e] w1]; simpl in *; [by exists l|].
  destruct (Hh e w1) as [l' Hl']. exists (l ++ l').
  by rewrite Hl', Hl, app_assoc.
Qed.

Lemma appends_when (c : bool) (m : M unit) : appends m → appends (when c m).
Proof. destruct c; [done|]. intros _. apply appends_ret. Qed.

Lemma appends_show x : appends (show x).
Proof. intros w. by exists [x]. Qed.

Lemma appends_time_sleep n : appends (time_sleep n).
Proof. intros w. exists []. simpl. by rewrite app_nil_r. Qed.

Lemma appends_session_has k : appends (session_has k).
Proof. intros w. exists []. simpl. by rewrite app_nil_r. Qed.

Lemma appends_session_get k : appends (session_get k).
Proof. intros w. exists []. simpl. by rewrite app_nil_r. Qed.

Lemma appends_session_set k v : appends (session_set k v).
Proof. intros w. exists []. simpl. by rewrite app_nil_r. Qed.

Lemma appends_generate_content model p : appends (generate_content model p).
Proof. intros w. exists []. simpl. by rewrite app_nil_r. Qed.

Create HintDb appends.
#[local] Hint Resolve appends_ret appends_show appends_time_sleep
  appends_session_has appends_session_get appends_session_set
  appends_generate_content : appends.

Ltac appends_step :=
  lazymatch goal with
  | |- ∀ _, _ => intros ?
  | |- appends (bind _ _) => apply appends_bind
  | |- appends (try_except _ _) => apply appends_try_except
  | |- appends (when _ _) => apply appends_when
  | |- appends _ => solve [auto with appends]
  end.

Lemma appends_attempts model p i n : appends (attempts model p i n).
Proof.
  revert i. induction n as [|n IH]; intros i; simpl; [apply appends_ret|].
  repeat appends_step.
Qed.

Lemma appends_safe_generate model p : appends (safe_generate model p).
Proof.
  unfold safe_generate, safe_generate_with.
  apply appends_bind; [apply appends_attempts|]. intros [t|]; repeat appends_step.
Qed.
#[local] Hint Resolve appends_safe_generate : appends.

Lemma appends_cached k (m : M pystr) : appends m → appends (cached k m).
Proof. intros Hm. unfold cached. repeat appends_step. Qed.
#[local] Hint Resolve appends_cached : appends.

Lemma appends_narratives ua model d : appends (narratives ua model d).
Proof.
  unfold narratives. repeat appends_step.
  apply appends_cached. repeat appends_step.
Qed.

Lemma appends_follow_up fs model m q : appends (follow_up fs model m q).
Proof.
  unfold follow_up. repeat appends_step.
Qed.

(** ** The gate on empty texts *)

Definition clear_screen (w : world) : world :=
  {| session_state := session_state w; calls := calls w;
     slept := slept w; screen := [] |}.

(** C10: when the old or the new text is empty, a run shows no metrics,
    calls the model not once, and leaves the session as it was: the page
    stays empty. *)
Theorem feature_4_skips_empty ua fs model (rq : request) (w : world) :
  old_code rq = [] ∨ new_code rq = [] →
  feature_4 ua fs model rq w = (Returned tt, clear_screen w)
  ∧ shown_metrics (feature_4 ua fs model rq w).2 = None
  ∧ calls (feature_4 ua fs model rq w).2 = calls w.
Proof.
  intros Hempty.
  assert (feature_4 ua fs model rq w = (Returned tt, clear_screen w)) as ->.
  { unfold feature_4, analysis.
    replace (nonempty (old_code rq) && nonempty (new_code rq)) with false.
    - by destruct (nonempty (old_page_title rq) && nonempty (new_page_title rq)).
    - destruct Hempty as [-> | ->]; [done|]. by rewrite andb_false_r. }
  done.
Qed.

(** C10 at an empty old text. *)
Lemma feature_4_skips_empty_old :
  feature_4 ascii_alnum blank_float_str echo_model (request_of [] text_axcd []) fresh
  = (Returned tt, clear_screen fresh)
  ∧ shown_metrics
      (feature_4 ascii_alnum blank_float_str echo_model
         (request_of [] text_axcd []) fresh).2 = None
  ∧ calls (feature_4 ascii_alnum blank_float_str echo_model
             (request_of [] text_axcd []) fresh).2 = calls fresh.
Proof.
  apply (feature_4_skips_empty ascii_alnum blank_float_str echo_model
           (request_of [] text_axcd []) fresh).
  left. reflexivity.
Defined.

(** ** The percentage *)

(** The metrics block by itself: the divisor is [max(1, len(old_lines))]. *)
Lemma percent_change_max (t1 t2 old new : pystr) :
  let m := change_metrics t1 t2 old new in
  percent_change m
  = round2 (int_truediv (lines_added m + lines_removed m)
              (1 `max` length (splitlines old)) * 100)%float.
Proof. simpl. unfold percent_of. by rewrite len_or_1_max. Qed.

Lemma feature_4_shows_metrics ua fs model (rq : request) (w : world) :
  nonempty (old_page_title rq) = true → nonempty (new_page_title rq) = true →
  old_code rq ≠ [] → new_code rq ≠ [] →
  shown_metrics (feature_4 ua fs model rq w).2
  = Some (change_metrics (old_page_title rq) (new_page_title rq)
            (old_code rq) (new_code rq)).
Proof.
  intros Ht1 Ht2 Ho Hn. unfold feature_4, analysis. rewrite Ht1, Ht2.
  destruct (old_code rq) as [|co o] eqn:Eo; [done|].
  destruct (new_code rq) as [|cn n] eqn:En; [done|].
  cbn [nonempty andb when].
  set (m := change_metrics _ _ _ _).
  set (rest := bind (narratives _ _ _) _).
  assert (appends rest) as Hrest.
  { subst rest. repeat appends_step; apply appends_narratives || apply appends_follow_up. }
  unfold try_except, bind at 1, show at 1. cbn [clear_screen screen app].
  match goal with |- context [rest ?w0] => destruct (Hrest w0) as [l Hl]; destruct (rest w0) as [[[]|e] w1] end;
    simpl in Hl; unfold shown_metrics; simpl; by rewrite Hl.
Qed.

(** C1, as the code has it: for every pair of texts the percentage is
    [round(((lines_added + lines_removed) / max(1, n)) * 100, 2)] for [n]
    the number of old lines, the quotient taken first and then multiplied
    by 100, both in binary floating point; with no old line the divisor is
    1, and an empty old text against the three lines a, b, c gives 3 added,
    0 removed and 300.0. *)
Theorem percent_change_quotient_first (t1 t2 old new : pystr) :
  let m := change_metrics t1 t2 old new in
  percent_change m
  = round2 (int_truediv (lines_added m + lines_removed m)
              (1 `max` length (splitlines old)) * 100)%float
  ∧ (let e := change_metrics t1 t2 [] new in
     percent_change e
     = round2 (int_truediv (lines_added e + lines_removed e) 1 * 100)%float)
  ∧ (let e := change_metrics (py "old") (py "new") [] text_abc in
     lines_added e = 3 ∧ lines_removed e = 0 ∧ percent_change e = 300%float).
Proof.
  split; [apply percent_change_max|].
  split; [apply (percent_change_max t1 t2 [] new)|].
  repeat split; vm_compute; reflexivity.
Qed.

(** C1, as stated, fails: for 160 old lines of which the last 23 are
    removed, a run shows (23 / 160) * 100 = 14.374999999999998 rounded, that
    is 14.37, where 100 * 23 / 160 = 14.375 rounds to 14.38. *)
Lemma percent_change_not_as_stated :
  let m := change_metrics (py "old") (py "new") (lines_a 160) (lines_a 137) in
  shown_metrics
    (feature_4 ascii_alnum blank_float_str echo_model
       (request_of (lines_a 160) (lines_a 137) []) fresh).2 = Some m
  ∧ length (splitlines (lines_a 160)) = 160
  ∧ lines_added m = 0 ∧ lines_removed m = 23
  ∧ percent_change m = 0x1.cbd70a3d70a3dp+3%float
  ∧ percent_as_stated (lines_added m) (lines_removed m)
      (length (splitlines (lines_a 160))) = 0x1.cc28f5c28f5c3p+3%float
  ∧ percent_change m
    ≠ percent_as_stated (lines_added m) (lines_removed m)
        (length (splitlines (lines_a 160))).
Proof.
  cbn zeta.
  assert (change_metrics (py "old") (py "new") (lines_a 160) (lines_a 137)
          = {| lines_added := 0; lines_removed := 23;
               percent_change := 0x1.cbd70a3d70a3dp+3%float;
               code_blocks_changed := 4 |}) as ->
    by (vm_compute; reflexivity).
  cbn [lines_added lines_removed percent_change].
  split_and!; try (vm_compute; reflexivity).
  intros H. apply (f_equal (λ x, PrimFloat.ltb x 0x1.cc28f5c28f5c3p+3)) in H.
  vm_compute in H. discriminate H.
Qed.

(** ** Retries and fallback of [safe_generate] *)

Lemma attempts_spec model (p : pystr) (i n : nat) (w : world) :
  let r := (attempts model p i n w).1 in
  let w' := (attempts model p i n w).2 in
  session_state w' = session_state w
  ∧ ∃ k, k ≤ n
    ∧ (∀ j, j < k → ∃ e, model (length (calls w) + j) p = Raised e)
    ∧ slept w' = slept w + 2 * k
    ∧ ((k < n ∧ calls w' = calls w ++ replicate (S k) p
        ∧ ∃ t, model (length (calls w) + k) p = Returned t ∧ r = Returned (Some t))
       ∨ (k = n ∧ calls w' = calls w ++ replicate n p ∧ r = Returned None)).
Proof.
  revert i w. induction n as [|n IH]; intros i w; cbn zeta.
  - split; [done|]. exists 0. simpl. rewrite app_nil_r.
    repeat split; [lia|intros; lia|lia|]. right. done.
  - cbn [attempts].
    unfold try_except, bind, generate_content, ret, show, time_sleep.
    destruct (model (length (calls w)) p) as [t|e] eqn:Hm;
      cbn [fst snd session_state calls slept screen].
    + split; [done|]. exists 0.
      split; [lia|]. split; [intros; lia|]. split; [lia|]. left.
      split; [lia|]. split; [done|]. exists t. by rewrite Nat.add_0_r.
    + match goal with |- context [attempts model p (i + 1) n ?w0] =>
        specialize (IH (i + 1) w0); set (w1 := w0) in * end.
      cbn zeta in IH. destruct IH as (Hss & k & Hk & Hfail & Hslept & Hres).
      split; [by rewrite Hss|]. exists (S k).
      assert (length (calls w1) = length (calls w) + 1) as Hlen.
      { subst w1. simpl. rewrite length_app. simpl. lia. }
      rewrite Hlen in *.
      split; [lia|]. split.
      { intros [|j] Hj; [rewrite Nat.add_0_r; by exists e|].
        replace (length (calls w) + S j) with (length (calls w) + 1 + j) by lia.
        apply Hfail. lia. }
      split; [rewrite Hslept; subst w1; simpl; lia|].
      destruct Hres as [(Hlt & Hcalls & t & Ht & Hr)|(-> & Hcalls & Hr)].
      * left. split; [lia|]. split.
        { rewrite Hcalls. subst w1. simpl. by rewrite <- app_assoc. }
        exists t. split; [|done].
        by replace (length (calls w) + S k) with (length (calls w) + 1 + k) by lia.
      * right. split; [done|]. split; [|done].
        rewrite Hcalls. subst w1. simpl. by rewrite <- app_assoc.
Qed.

(** The attempts, the sleeps and the outcome of [safe_generate]. *)
Lemma safe_generate_outcome model (prompt : pystr) (w : world) :
  let p := clean_and_truncate_prompt prompt in
  let r := (safe_generate model prompt w).1 in
  let w' := (safe_generate model prompt w).2 in
  session_state w' = session_state w
  ∧ ∃ k, k ≤ 3
    ∧ (∀ j, j < k → ∃ e, model (length (calls w) + j) p = Raised e)
    ∧ slept w' = slept w + 2 * k
    ∧ ((k < 3 ∧ calls w' = calls w ++ replicate (S k) p
        ∧ ∃ t, model (length (calls w) + k) p = Returned t ∧ r = Returned t)
       ∨ (k = 3 ∧ calls w' = calls w ++ replicate 3 p ++ [fallback_prompt]
          ∧ r = model (length (calls w) + 3) fallback_prompt)).
Proof.
  cbn zeta. unfold safe_generate, safe_generate_with, bind.
  pose proof (attempts_spec model (clean_and_truncate_prompt prompt) 0 3 w) as H.
  cbn zeta in H. destruct H as (Hss & k & Hk & Hfail & Hslept & Hres).
  destruct (attempts _ _ _ _ _) as [r1 w1]. cbn [fst snd] in *.
  destruct Hres as [(Hlt & Hcalls & t & Ht & ->)|(-> & Hcalls & ->)].
  - split; [done|]. exists k. do 3 (split; [done|]). left.
    do 2 (split; [done|]). by exists t.
  - unfold show, generate_content. cbn [fst snd calls slept session_state].
    split; [done|]. exists 3. do 3 (split; [done|]). right.
    split; [done|]. split; [by rewrite Hcalls, <- app_assoc|].
    by rewrite Hcalls, length_app, length_replicate.
Qed.

(** C3, as the code has it: [safe_generate] tries the sanitized prompt up to
    3 times, sleeping 2 seconds after every failed attempt (the third as
    well); the first attempt that returns gives the result.  After three
    failures the fallback prompt is tried once, without retry, and its
    outcome is the outcome of [safe_generate]: its text, or its exception. *)
Theorem safe_generate_retries model (prompt : pystr) (w : world) :
  let p := clean_and_truncate_prompt prompt in
  let r := (safe_generate model prompt w).1 in
  let w' := (safe_generate model prompt w).2 in
  session_state w' = session_state w
  ∧ ∃ k, k ≤ 3
    ∧ (∀ j, j < k → ∃ e, model (length (calls w) + j) p = Raised e)
    ∧ slept w' = slept w + 2 * k
    ∧ ((k < 3 ∧ calls w' = calls w ++ replicate (S k) p
        ∧ ∃ t, model (length (calls w) + k) p = Returned t ∧ r = Returned t)
       ∨ (k = 3 ∧ calls w' = calls w ++ replicate 3 p ++ [fallback_prompt]
          ∧ r = model (length (calls w) + 3) fallback_prompt)).
Proof. exact (safe_generate_outcome model prompt w). Qed.

(** C3, as stated, fails: when the model is down the fallback call raises
    as well, and [safe_generate] raises to its caller after four calls. *)
Lemma safe_generate_raises_when_down :
  (safe_generate down_model (py "explain") fresh).1 = Raised (py "unavailable")
  ∧ length (calls (safe_generate down_model (py "explain") fresh).2) = 4.
Proof. split; vm_compute; reflexivity. Qed.

(** A run of [feature_4] never raises.  When the analysis raises, the
    outermost handler (lines 751-752) catches the exception and puts the
    error [Error: <message>] on the page as its last widget; the session,
    the calls and the sleeps stay as the analysis left them. *)
Theorem feature_4_returns ua fs model (rq : request) (w : world) :
  (feature_4 ua fs model rq w).1 = Returned tt
  ∧ ∀ e,
      nonempty (old_page_title rq) && nonempty (new_page_title rq) = true →
      (analysis ua fs model rq (clear_screen w)).1 = Raised e →
      let w' := (analysis ua fs model rq (clear_screen w)).2 in
      (feature_4 ua fs model rq w).2
      = {| session_state := session_state w'; calls := calls w';
           slept := slept w';
           screen := screen w' ++ [Error (py "Error: " ++ e)] |}.
Proof.
  unfold feature_4, when, try_except. fold (clear_screen w). split.
  - destruct (nonempty (old_page_title rq) && nonempty (new_page_title rq)); [|done].
    by destruct (analysis _ _ _ _ _) as [[[]|e] w1].
  - intros e -> Hraised. cbn zeta.
    destruct (analysis _ _ _ _ _) as [r w1]. cbn [fst snd] in *. by subst r.
Qed.

(** [feature_4_returns] with the model down: the first narrative raises
    out of [safe_generate], and the page ends with the error. *)
Lemma feature_4_returns_when_down :
  (analysis ascii_alnum blank_float_str down_model
     (request_of text_abc text_axcd []) (clear_screen fresh)).1
  = Raised (py "unavailable")
  ∧ last (screen (feature_4 ascii_alnum blank_float_str down_model
                    (request_of text_abc text_axcd []) fresh).2)
    = Some (Error (py "Error: unavailable")).
Proof.
  assert ((analysis ascii_alnum blank_float_str down_model
             (request_of text_abc text_axcd []) (clear_screen fresh)).1
          = Raised (py "unavailable")) as Hraised by (vm_compute; reflexivity).
  split; [exact Hraised|].
  rewrite (proj2 (feature_4_returns ascii_alnum blank_float_str down_model
                    (request_of text_abc text_axcd []) fresh)
             (py "unavailable") eq_refl Hraised).
  cbn [screen]. by rewrite last_snoc.
Defined.

(** ** The session cache of the narratives *)

Lemma cached_present (key : string) (value : M pystr) (w : world) (v : pystr) :
  session_state w !! key = Some v → cached key value w = (Returned tt, w).
Proof.
  intros Hk. unfold cached, bind, session_has.
  rewrite bool_decide_eq_true_2 by (by rewrite Hk). done.
Qed.

Lemma narratives_present ua model (safe_diff : pystr) (w : world) (i r k : pystr) :
  session_state w !! "impact_text" = Some i →
  session_state w !! "rec_text" = Some r →
  session_state w !! "risk_text" = Some k →
  narratives ua model safe_diff w = (Returned tt, w).
Proof.
  intros Hi Hr Hk. unfold narratives, bind.
  by rewrite (cached_present _ _ _ _ Hi), (cached_present _ _ _ _ Hr),
    (cached_present _ _ _ _ Hk).
Qed.

(** [m] leaves the session entry [key] as it was, whatever its outcome. *)
Definition keeps {A} (key : string) (m : M A) : Prop :=
  ∀ w, session_state (m w).2 !! key = session_state w !! key.

Lemma keeps_ret {A} key (x : A) : keeps key (ret x).
Proof. done. Qed.

Lemma keeps_bind {A B} key (m : M A) (f : A → M B) :
  keeps key m → (∀ x, keeps key (f x)) → keeps key (bind m f).
Proof.
  intros Hm Hf w. unfold bind. specialize (Hm w).
  destruct (m w) as [[x|e] w1]; simpl in *; [|done]. by rewrite Hf.
Qed.

Lemma keeps_when key (c : bool) (m : M unit) : keeps key m → keeps key (when c m).
Proof. by destruct c. Qed.

Lemma keeps_show key x : keeps key (show x).
Proof. done. Qed.

Lemma keeps_session_get key k : keeps key (session_get k).
Proof. done. Qed.

Lemma keeps_session_has key k : keeps key (session_has k).
Proof. done. Qed.

Lemma keeps_session_set key k v : key ≠ k → keeps key (session_set k v).
Proof. intros Hne w. simpl. by rewrite lookup_insert_ne. Qed.

Lemma keeps_safe_generate key model p : keeps key (safe_generate model p).
Proof.
  intros w. by destruct (safe_generate_outcome model p w) as [-> _].
Qed.

Lemma keeps_cached key k (m : M pystr) :
  key ≠ k → keeps key m → keeps key (cached k m).
Proof.
  intros Hne Hm. unfold cached. apply keeps_bind; [apply keeps_session_has|].
  intros has. apply keeps_when, keeps_bind; [done|].
  intros t. by apply keeps_session_set.
Qed.

Ltac keeps_step :=
  lazymatch goal with
  | |- ∀ _, _ => intros ?
  | |- keeps _ (bind _ _) => apply keeps_bind
  | |- keeps _ (when _ _) => apply keeps_when
  | |- keeps _ (cached _ _) => apply keeps_cached; [done|]
  | |- keeps _ (session_set _ _) => apply keeps_session_set; done
  | |- keeps _ (session_get _) => apply keeps_session_get
  | |- keeps _ (show _) => apply keeps_show
  | |- keeps _ (safe_generate _ _) => apply keeps_safe_generate
  | |- keeps _ (ret _) => apply keeps_ret
  end.

Lemma keeps_follow_up key fs model m q :
  key ≠ "user_question" → key ≠ "qa_answer" → keeps key (follow_up fs model m q).
Proof. intros H1 H2. unfold follow_up. repeat keeps_step. Qed.

Lemma feature_4_keeps ua fs model (rq : request) (w : world) (i r k : pystr)
    (key : string) :
  session_state w !! "impact_text" = Some i →
  session_state w !! "rec_text" = Some r →
  session_state w !! "risk_text" = Some k →
  key ≠ "user_question" → key ≠ "qa_answer" →
  session_state (feature_4 ua fs model rq w).2 !! key = session_state w !! key.
Proof.
  intros Hi Hr Hk H1 H2. unfold feature_4, analysis, when.
  destruct (nonempty (old_page_title rq) && nonempty (new_page_title rq)); [|done].
  destruct (nonempty (old_code rq) && nonempty (new_code rq)); [|done].
  unfold try_except, bind at 1, show at 1, bind at 1.
  erewrite narratives_present by done.
  set (rest := bind _ _).
  assert (keeps key rest) as Hrest.
  { subst rest. repeat first [ by apply keeps_follow_up | keeps_step ]. }
  match goal with |- context [rest ?w0] => specialize (Hrest w0) end.
  by destruct (rest _) as [[[]|e] w1].
Qed.

(** Once the three narratives are in the session, no run replaces them,
    whatever pair of texts it is given. *)
Lemma narratives_never_replaced ua fs model (rq : request) (w : world)
    (i r k : pystr) :
  session_state w !! "impact_text" = Some i →
  session_state w !! "rec_text" = Some r →
  session_state w !! "risk_text" = Some k →
  session_state (feature_4 ua fs model rq w).2 !! "impact_text" = Some i
  ∧ session_state (feature_4 ua fs model rq w).2 !! "rec_text" = Some r
  ∧ session_state (feature_4 ua fs model rq w).2 !! "risk_text" = Some k.
Proof.
  intros Hi Hr Hk.
  rewrite !(feature_4_keeps ua fs model rq w i r k) by done. done.
Qed.

(** C4 fails on the code: after a run on the pair (a b c, a x c d), a run
    on another pair (x, y) in the same session calls the model not once and
    shows the impact text written for the first pair, which says nothing of
    the second pair's diff. *)
Theorem stale_narratives_for_new_pair :
  let run := feature_4 ascii_alnum blank_float_str echo_model in
  let w1 := (run (request_of text_abc text_axcd []) fresh).2 in
  let w2 := (run (request_of (py "x") (py "y") []) w1).2 in
  calls w2 = calls w1
  ∧ session_state w2 !! "impact_text" = session_state w1 !! "impact_text"
  ∧ session_state w2 !! "rec_text" = session_state w1 !! "rec_text"
  ∧ session_state w2 !! "risk_text" = session_state w1 !! "risk_text"
  ∧ session_state w2 !! "impact_text"
    ≠ session_state (run (request_of (py "x") (py "y") []) fresh).2 !! "impact_text".
Proof. repeat split; vm_compute; congruence. Qed.

(** ** The follow-up question *)

(** The prompt of the question [q] in the session of [w], as it reaches the
    model. *)
Definition qa_prompt_of fs (m : ChangeMetrics) (q : pystr) (w : world) : pystr :=
  clean_and_truncate_prompt
    (qa_prompt
       (qa_context fs
          (default [] (session_state w !! "impact_text"))
          (default [] (session_state w !! "rec_text"))
          (default [] (session_state w !! "risk_text")) m) q).

(** A session in which the question "why" was asked and answered. *)
Definition answered_session : world :=
  (feature_4 ascii_alnum blank_float_str echo_model
     (request_of text_abc text_axcd (py "why")) fresh).2.

Lemma bind_cached_present {B} (key : string) (value : M pystr) (f : unit → M B)
    (w : world) (v : pystr) :
  session_state w !! key = Some v → bind (cached key value) f w = f tt w.
Proof. intros Hk. unfold bind at 1. by erewrite cached_present. Qed.

(** The follow-up question against the session. *)
Lemma follow_up_outcome fs model (m : ChangeMetrics) (q : pystr) (w : world)
    (asked ans : pystr) :
  session_state w !! "user_question" = Some asked →
  session_state w !! "qa_answer" = Some ans →
  (q = asked ∨ q = [] →
     calls (follow_up fs model m q w).2 = calls w
     ∧ session_state (follow_up fs model m q w).2 = session_state w
     ∧ screen (follow_up fs model m q w).2
       = screen w ++ (if nonempty ans then [Markdown ans] else []))
  ∧ (q ≠ asked → q ≠ [] →
     session_state (follow_up fs model m q w).2 !! "user_question" = Some q
     ∧ (∃ n, 1 ≤ n ≤ 4
             ∧ length (calls (follow_up fs model m q w).2) = length (calls w) + n)
     ∧ ∀ t, model (length (calls w)) (qa_prompt_of fs m q w) = Returned t →
         calls (follow_up fs model m q w).2 = calls w ++ [qa_prompt_of fs m q w]
         ∧ session_state (follow_up fs model m q w).2 !! "qa_answer" = Some t).
Proof.
  intros Hq Ha.
  assert (follow_up fs model m q w
          = (do _ <- when (nonempty q && negb (bool_decide (q = asked)))
               (do _ <- session_set "user_question" q in
                do answer <- safe_generate model
                  (qa_prompt
                     (qa_context fs
                        (default [] (session_state w !! "impact_text"))
                        (default [] (session_state w !! "rec_text"))
                        (default [] (session_state w !! "risk_text")) m) q) in
                session_set "qa_answer" answer) in
             do answer <- session_get "qa_answer" in
             when (nonempty answer) (show (Markdown answer))) w) as ->.
  { unfold follow_up.
    rewrite (bind_cached_present _ _ _ _ _ Hq), (bind_cached_present _ _ _ _ _ Ha).
    unfold bind, when, session_get, session_set, ret.
    cbn [fst snd session_state]. rewrite Hq. cbn [from_option]; unfold id.
    destruct (nonempty q && _); [|reflexivity].
    cbn beta. rewrite !lookup_insert_ne by done. reflexivity. }
  split.
  - intros Hsame.
    replace (nonempty q && negb (bool_decide (q = asked))) with false.
    + unfold when, bind, ret, session_get, show.
      cbn [fst snd session_state calls screen]. rewrite Ha. cbn [from_option]; unfold id.
      destruct (nonempty ans); cbn [fst snd session_state calls screen];
        by rewrite ?app_nil_r.
    + destruct Hsame as [-> | ->]; [|done].
      by rewrite bool_decide_eq_true_2, andb_false_r.
  - intros Hne Hnonempty.
    replace (nonempty q && negb (bool_decide (q = asked))) with true.
    2:{ rewrite bool_decide_eq_false_2 by done. by destruct q. }
    unfold qa_prompt_of, when, bind, session_set, session_get, show, ret.
    set (w1 := {| session_state := <["user_question":=q]> (session_state w);
                  calls := calls w; slept := slept w; screen := screen w |}).
    pose proof (safe_generate_outcome model
      (qa_prompt
         (qa_context fs
            (default [] (session_state w !! "impact_text"))
            (default [] (session_state w !! "rec_text"))
            (default [] (session_state w !! "risk_text")) m) q) w1) as Hgen.
    lazy zeta in Hgen.
    destruct Hgen as (Hss & k & Hk & Hfail & _ & Hres).
    destruct (safe_generate _ _ w1) as [r w2]. cbn [fst snd] in *.
    replace (calls w1) with (calls w) in * by done.
    assert (∃ n, 1 ≤ n ≤ 4 ∧ length (calls w2) = length (calls w) + n) as Hcount.
    { destruct Hres as [(Hlt & -> & _)|(-> & -> & _)].
      - exists (S k). rewrite length_app, length_replicate. lia.
      - exists 4. rewrite !length_app, length_replicate. simpl. lia. }
    set (p := clean_and_truncate_prompt _) in *.
    assert (∀ t, model (length (calls w)) p = Returned t →
                 calls w2 = calls w ++ [p] ∧ r = Returned t)
      as Hfirst.
    { intros t Ht. destruct k as [|k].
      - destruct Hres as [(_ & -> & t' & Ht' & ->)|(? & _)]; [|lia].
        rewrite Nat.add_0_r in Ht'. split; [done|congruence].
      - destruct (Hfail 0 ltac:(lia)) as [e He].
        rewrite Nat.add_0_r in He. congruence. }
    assert (session_state w2 !! "user_question" = Some q) as Hq2.
    { rewrite Hss. subst w1. simpl. by rewrite lookup_insert_eq. }
    destruct r as [a|e]; cbn [fst snd session_state calls].
    + rewrite lookup_insert_eq. cbn [from_option]; unfold id.
      destruct (nonempty a); cbn [fst snd session_state calls];
        (split; [by rewrite lookup_insert_ne|]); (split; [done|]);
        intros t Ht; destruct (Hfirst t Ht) as [-> [= ->]];
        by rewrite lookup_insert_eq.
    + split; [done|]. split; [done|].
      intros t Ht. by destruct (Hfirst t Ht) as [_ [=]].
Qed.

(** A new question against the session: the attempts, the last call, and
    what the run leaves according to the outcome of that call. *)
Lemma follow_up_new_question fs model (m : ChangeMetrics) (q : pystr) (w : world)
    (asked ans : pystr) :
  session_state w !! "user_question" = Some asked →
  session_state w !! "qa_answer" = Some ans →
  q ≠ asked → q ≠ [] →
  let p := qa_prompt_of fs m q w in
  let w1 := (follow_up fs model m q w).2 in
  ∃ k, k ≤ 3
    ∧ (∀ j, j < k → ∃ e, model (length (calls w) + j) p = Raised e)
    ∧ calls w1 = calls w ++ replicate k p ++ [last_prompt k p]
    ∧ match model (length (calls w) + k) (last_prompt k p) with
      | Returned t =>
          (follow_up fs model m q w).1 = Returned tt
          ∧ session_state w1 !! "user_question" = Some q
          ∧ session_state w1 !! "qa_answer" = Some t
      | Raised e => (follow_up fs model m q w).1 = Raised e
      end.
Proof.
  intros Hq Ha Hne Hnonempty p w1.
  assert (follow_up fs model m q w
          = (do _ <- (do _ <- session_set "user_question" q in
                      do answer <- safe_generate model
                        (qa_prompt
                           (qa_context fs
                              (default [] (session_state w !! "impact_text"))
                              (default [] (session_state w !! "rec_text"))
                              (default [] (session_state w !! "risk_text")) m) q) in
                      session_set "qa_answer" answer) in
             do answer <- session_get "qa_answer" in
             when (nonempty answer) (show (Markdown answer))) w) as Hrun.
  { unfold follow_up.
    rewrite (bind_cached_present _ _ _ _ _ Hq), (bind_cached_present _ _ _ _ _ Ha).
    unfold bind, when, session_get, session_set, ret.
    cbn [fst snd session_state]. rewrite Hq. cbn [from_option]; unfold id.
    rewrite bool_decide_eq_false_2 by done.
    replace (nonempty q) with true by by destruct q.
    cbn [andb negb]. cbn beta. rewrite !lookup_insert_ne by done. reflexivity. }
  subst w1 p. rewrite Hrun. clear Hrun.
  unfold qa_prompt_of, when, bind, session_set, session_get, show, ret.
  set (w0 := {| session_state := <["user_question":=q]> (session_state w);
                calls := calls w; slept := slept w; screen := screen w |}).
  pose proof (safe_generate_outcome model
    (qa_prompt
       (qa_context fs
          (default [] (session_state w !! "impact_text"))
          (default [] (session_state w !! "rec_text"))
          (default [] (session_state w !! "risk_text")) m) q) w0) as Hgen.
  lazy zeta in Hgen.
  destruct Hgen as (Hss & k & Hk & Hfail & _ & Hres).
  destruct (safe_generate _ _ w0) as [r w2]. cbn [fst snd] in *.
  replace (calls w0) with (calls w) in * by done.
  set (p := clean_and_truncate_prompt _) in *.
  assert (session_state w2 !! "user_question" = Some q) as Hq2.
  { rewrite Hss. subst w0. cbn [session_state]. by rewrite lookup_insert_eq. }
  assert (calls w2 = calls w ++ replicate k p ++ [last_prompt k p]
          ∧ r = model (length (calls w) + k) (last_prompt k p)) as [Hcalls Hr].
  { unfold last_prompt.
    destruct Hres as [(Hlt & -> & t & Ht & ->)|(-> & -> & ->)].
    - rewrite bool_decide_eq_true_2 by done. split; [|done].
      by rewrite replicate_S_end.
    - by rewrite bool_decide_eq_false_2 by lia. }
  exists k. split; [done|]. split; [done|]. rewrite <- Hr.
  destruct r as [a|e]; cbn [fst snd session_state calls].
  - rewrite lookup_insert_eq. cbn [from_option]; unfold id.
    destruct (nonempty a); cbn [fst snd session_state calls];
      by rewrite lookup_insert_eq, lookup_insert_ne.
  - done.
Qed.

(** C8, as the code has it.  Let a run answer the question [q]: [q] is
    non-empty and not the recorded question, and the run returns.  Then the
    cached answer is the text [t] that the model returned at the last call
    of the one [safe_generate] of that run ([k] failed attempts on the
    question's prompt, [k] at most 3, then a call on that prompt again or,
    after three failures, on the fallback prompt), and [q] is the recorded
    question.  After it, the same question [q] calls the model not once,
    leaves the session as it was and shows [t]; a different non-empty
    question [q'] triggers one [safe_generate] again, one to four calls,
    and the text its last call returns replaces the cached answer. *)
Theorem follow_up_cache fs model (m : ChangeMetrics) (q q' : pystr) (w : world)
    (asked ans : pystr) :
  session_state w !! "user_question" = Some asked →
  session_state w !! "qa_answer" = Some ans →
  q ≠ asked → q ≠ [] →
  (follow_up fs model m q w).1 = Returned tt →
  let p := qa_prompt_of fs m q w in
  let w1 := (follow_up fs model m q w).2 in
  ∃ t,
    (∃ k, k ≤ 3
       ∧ (∀ j, j < k → ∃ e, model (length (calls w) + j) p = Raised e)
       ∧ calls w1 = calls w ++ replicate k p ++ [last_prompt k p]
       ∧ model (length (calls w) + k) (last_prompt k p) = Returned t)
    ∧ session_state w1 !! "user_question" = Some q
    ∧ session_state w1 !! "qa_answer" = Some t
    ∧ (calls (follow_up fs model m q w1).2 = calls w1
       ∧ session_state (follow_up fs model m q w1).2 = session_state w1
       ∧ screen (follow_up fs model m q w1).2
         = screen w1 ++ (if nonempty t then [Markdown t] else []))
    ∧ (q' ≠ q → q' ≠ [] →
       let p' := qa_prompt_of fs m q' w1 in
       let w2 := (follow_up fs model m q' w1).2 in
       ∃ k', k' ≤ 3
         ∧ (∀ j, j < k' → ∃ e, model (length (calls w1) + j) p' = Raised e)
         ∧ calls w2 = calls w1 ++ replicate k' p' ++ [last_prompt k' p']
         ∧ ∀ t', model (length (calls w1) + k') (last_prompt k' p') = Returned t' →
             (follow_up fs model m q' w1).1 = Returned tt
             ∧ session_state w2 !! "user_question" = Some q'
             ∧ session_state w2 !! "qa_answer" = Some t').
Proof.
  intros Hq Ha Hne Hnonempty Hret p w1.
  destruct (follow_up_new_question fs model m q w asked ans Hq Ha Hne Hnonempty)
    as (k & Hk & Hfail & Hcalls & Hlast).
  destruct (model (length (calls w) + k) (last_prompt k (qa_prompt_of fs m q w)))
    as [t|e] eqn:Hm; [|congruence].
  destruct Hlast as (_ & Hq1 & Ha1).
  exists t. split; [by exists k|]. do 2 (split; [done|]). split.
  - by apply (follow_up_outcome fs model m q w1 q t Hq1 Ha1); left.
  - intros Hne' Hnonempty' p' w2.
    destruct (follow_up_new_question fs model m q' w1 q t Hq1 Ha1 Hne' Hnonempty')
      as (k' & Hk' & Hfail' & Hcalls' & Hlast').
    exists k'. do 3 (split; [done|]). intros t' Ht'.
    fold p' in Hlast'. by rewrite Ht' in Hlast'.
Qed.

(** [Returned] is injective. *)
Lemma Returned_inj {A} (x y : A) : Returned x = Returned y → x = y.
Proof. by intros [= ->]. Qed.

(** C8 in the session where "why" was asked, with a model that answers:
    "how" costs one call and its answer is stored; "how" again is served
    from the session; "why" after it costs one call and its answer is
    stored. *)
Lemma follow_up_cache_how_after_why :
  let m := change_metrics (py "old") (py "new") text_abc text_axcd in
  let p := qa_prompt_of blank_float_str m (py "how") answered_session in
  let w1 := (follow_up blank_float_str echo_model m (py "how") answered_session).2 in
  let p' := qa_prompt_of blank_float_str m (py "why") w1 in
  calls w1 = calls answered_session ++ [p]
  ∧ session_state w1 !! "user_question" = Some (py "how")
  ∧ session_state w1 !! "qa_answer" = Some p
  ∧ calls (follow_up blank_float_str echo_model m (py "how") w1).2 = calls w1
  ∧ calls (follow_up blank_float_str echo_model m (py "why") w1).2
    = calls w1 ++ [p']
  ∧ session_state (follow_up blank_float_str echo_model m (py "why") w1).2
      !! "qa_answer" = Some p'.
Proof.
  cbn zeta.
  assert (∀ x, last_prompt 0 x = x) as E.
  { intros x. unfold last_prompt. rewrite bool_decide_eq_true_2; [reflexivity|lia]. }
  destruct (follow_up_cache blank_float_str echo_model
              (change_metrics (py "old") (py "new") text_abc text_axcd)
              (py "how") (py "why") answered_session (py "why")
              (default [] (session_state answered_session !! "qa_answer")))
    as (t & (k & Hk & Hfail & Hcalls & Hm) & Hq1 & Ha1 & (Hc & _) & Hnew).
  - vm_compute. reflexivity.
  - vm_compute. reflexivity.
  - intros H. vm_compute in H. discriminate H.
  - intros H. vm_compute in H. discriminate H.
  - vm_compute. reflexivity.
  - destruct Hnew as (k' & Hk' & Hfail' & Hcalls' & Hret').
    { intros H. vm_compute in H. discriminate H. }
    { intros H. vm_compute in H. discriminate H. }
    destruct k as [|k];
      [|destruct (Hfail 0 ltac:(lia)) as [e He]; discriminate He].
    destruct k' as [|k'];
      [|destruct (Hfail' 0 ltac:(lia)) as [e He]; discriminate He].
    destruct (Hret' _ eq_refl) as (_ & _ & Ha2).
    rewrite E in Hcalls, Hm, Hcalls', Ha2.
    cbn [replicate app] in Hcalls, Hcalls'.
    apply Returned_inj in Hm. subst t.
    exact (conj Hcalls (conj Hq1 (conj Ha1 (conj Hc (conj Hcalls' Ha2))))).
Defined.

(** C8, as stated, fails: when the first attempt on a new question raises,
    that one question costs two calls of the model (four calls before it,
    six after). *)
Lemma new_question_two_calls :
  let run := feature_4 ascii_alnum blank_float_str (flaky_model 4) in
  let w1 := (run (request_of text_abc text_axcd (py "why")) fresh).2 in
  let w2 := (run (request_of text_abc text_axcd (py "how")) w1).2 in
  length (calls w1) = 4 ∧ length (calls w2) = 6.
Proof. split; vm_compute; reflexivity. Qed.

(** ** What the counts of [feature_4] miss *)

(** C2 fails on the code: the new line [++i] is an ADD operation of the
    edit script, but its diff line [+++i] is taken for the preamble and not
    counted; the removed line [--x] is lost the same way. *)
Theorem lines_added_misses_plus_plus :
  count_ops ADD (compute_diff [py "a"] [py "++i"]) = 1
  ∧ lines_added (change_metrics (py "old") (py "new") (py "a") (py "++i")) = 0
  ∧ count_ops REMOVE (compute_diff [py "--x"] [py "b"]) = 1
  ∧ lines_removed (change_metrics (py "old") (py "new") (py "--x") (py "b")) = 0.
Proof. repeat split; vm_compute; reflexivity. Qed.

(** The spec's scenario, where no line starts with [++] or [--]. *)
Lemma metrics_abc_axcd :
  compute_diff (splitlines text_abc) (splitlines text_axcd)
  = [(CONTEXT, py "a"); (REMOVE, py "b"); (ADD, py "x"); (CONTEXT, py "c");
     (ADD, py "d")]
  ∧ lines_added (change_metrics (py "old") (py "new") text_abc text_axcd) = 2
  ∧ lines_removed (change_metrics (py "old") (py "new") text_abc text_axcd) = 1
  ∧ percent_change (change_metrics (py "old") (py "new") text_abc text_axcd)
    = 100%float.
Proof. repeat split; vm_compute; reflexivity. Qed.

(** ** Severity tagging *)

Lemma startswith_app (s p : pystr) :
  startswith s p = true ↔ ∃ rest, s = p ++ rest.
Proof.
  revert s. induction p as [|x p IH]; intros s.
  - destruct s; (split; [by eexists|done]).
  - destruct s as [|y s]; simpl; [split; [done|by intros [? ?]]|].
    rewrite andb_true_iff, N.eqb_eq, IH. split.
    + intros [-> [rest ->]]. by exists rest.
    + intros [rest [= -> ->]]. split; [done|by exists rest].
Qed.

(** Passing over [k] characters of a match, then substituting, is
    substituting in what follows them, the last one passed being the
    character before. *)
Lemma re_sub_skip pat repl (prev : option N) (k : nat) (s : pystr) :
  re_sub pat repl prev k s
  = re_sub pat repl
      (match last (take k s) with Some c => Some c | None => prev end)
      0 (drop k s).
Proof.
  revert prev k. induction s as [|c s IH]; intros prev k.
  - by destruct k.
  - destruct k as [|k]; [done|]. cbn [re_sub take drop]. rewrite IH.
    f_equal. rewrite last_cons. by destruct (last (take k s)).
Qed.

Section SeverityFacts.
Variable unicode_alnum : N → bool.

(** The spec's words. *)

Definition severity_tokens : list pystr := [py "Low"; py "Medium"; py "High"].

Definition severity_marker (token : pystr) : N :=
  if bool_decide (token = py "Low") then marker_low
  else if bool_decide (token = py "Medium") then marker_medium
  else marker_high.

(** [token] stands at the head of [s] as a whole word: no word character
    before it (where [prev] is) and none after it. *)
Definition whole_word_at (prev : option N) (s token : pystr) : Prop :=
  is_word unicode_alnum prev = false
  ∧ ∃ rest, s = token ++ rest ∧ is_word unicode_alnum (head rest) = false.

(** [tagged prev s out]: [out] is [s] with every whole-word severity token
    prefixed by its marker and a space, the token itself kept, and every
    other character copied. *)
Inductive tagged : option N → pystr → pystr → Prop :=
  | tagged_nil prev : tagged prev [] []
  | tagged_token prev token rest out :
      token ∈ severity_tokens →
      whole_word_at prev (token ++ rest) token →
      tagged (last token) rest out →
      tagged prev (token ++ rest)
        (severity_marker token :: 0x20%N :: token ++ out)
  | tagged_char prev c rest out :
      (∀ token, token ∈ severity_tokens → ¬ whole_word_at prev (c :: rest) token) →
      tagged (Some c) rest out →
      tagged prev (c :: rest) (c :: out).

Lemma token_facts (token : pystr) :
  token ∈ severity_tokens →
  (∃ c t, token = c :: t ∧ is_word unicode_alnum (Some c) = true)
  ∧ is_word unicode_alnum (last token) = true
  ∧ severity_repl token = severity_marker token :: 0x20%N :: token.
Proof.
  intros H. unfold severity_tokens in H.
  repeat (apply elem_of_cons in H as [->|H]); [..|by apply elem_of_nil in H];
    (split; [eexists _, _; split; reflexivity|]); split; reflexivity.
Qed.

Lemma match_token_Some prev s token n :
  token ∈ severity_tokens →
  match_token unicode_alnum prev s token = Some n ↔
  n = length token ∧ whole_word_at prev s token.
Proof.
  intros Htok. destruct (token_facts token Htok) as ((c & t & -> & Hc) & Hlast & _).
  unfold match_token, whole_word_at, word_boundary. rewrite Hlast. split.
  - destruct (_ && _) eqn:Hb; [|done]. intros [= <-].
    apply andb_true_iff in Hb as [[Hb1 Hb2]%andb_true_iff Hb3].
    apply startswith_app in Hb2 as [rest ->]. split; [done|].
    rewrite drop_app_length in Hb3.
    change (head ((c :: t) ++ rest)) with (Some c) in Hb1. rewrite Hc in Hb1.
    split; [by destruct (is_word _ prev)|]. exists rest. split; [done|].
    by destruct (is_word _ (head rest)).
  - intros (-> & Hprev & rest & -> & Hrest).
    rewrite drop_app_length, Hprev, Hrest.
    replace (startswith ((c :: t) ++ rest) (c :: t)) with true
      by (symmetry; apply startswith_app; by exists rest).
    change (head ((c :: t) ++ rest)) with (Some c). by rewrite Hc.
Qed.

Lemma pat_severity_Some prev s n :
  pat_severity unicode_alnum prev s = Some n →
  ∃ token, token ∈ severity_tokens ∧ n = length token ∧ whole_word_at prev s token.
Proof.
  unfold pat_severity.
  assert (∀ token m, token ∈ severity_tokens →
            match_token unicode_alnum prev s token = Some m →
            ∃ token, token ∈ severity_tokens ∧ m = length token
                     ∧ whole_word_at prev s token) as Hone.
  { intros token m Hin Hm. exists token. split; [done|].
    by apply (proj1 (match_token_Some prev s token m Hin)). }
  destruct (match_token _ prev s (py "Low")) as [n1|] eqn:H1.
  { intros [= <-]. apply (Hone (py "Low")); [set_solver|done]. }
  destruct (match_token _ prev s (py "Medium")) as [n2|] eqn:H2.
  { intros [= <-]. apply (Hone (py "Medium")); [set_solver|done]. }
  intros H3. apply (Hone (py "High")); [set_solver|done].
Qed.

Lemma pat_severity_None prev s token :
  pat_severity unicode_alnum prev s = None →
  token ∈ severity_tokens → ¬ whole_word_at prev s token.
Proof.
  unfold pat_severity. intros Hp Htok Hw.
  assert (match_token unicode_alnum prev s token = Some (length token)) as Hm
    by (by apply match_token_Some).
  unfold severity_tokens in Htok.
  repeat (apply elem_of_cons in Htok as [->|Htok]);
    [..|by apply elem_of_nil in Htok].
  - by rewrite Hm in Hp.
  - destruct (match_token _ prev s (py "Low")); [done|]. by rewrite Hm in Hp.
  - destruct (match_token _ prev s (py "Low")); [done|].
    destruct (match_token _ prev s (py "Medium")); [done|]. by rewrite Hm in Hp.
Qed.

Lemma re_sub_severity_tagged (n : nat) (prev : option N) (s : pystr) :
  length s ≤ n →
  tagged prev s (re_sub (pat_severity unicode_alnum) severity_repl prev 0 s).
Proof.
  revert prev s. induction n as [|n IH]; intros prev s Hlen.
  { destruct s; [constructor|simpl in Hlen; lia]. }
  destruct s as [|c s]; [constructor|]. cbn [re_sub].
  destruct (pat_severity unicode_alnum prev (c :: s)) as [k|] eqn:Hp.
  - apply pat_severity_Some in Hp as (token & Htok & -> & Hw).
    pose proof Hw as (_ & rest & Hs & _).
    destruct (token_facts token Htok) as ((c' & t & -> & _) & _ & Hrepl).
    injection Hs as <- ->. cbn [length].
    replace (take (S (length t)) (c :: t ++ rest)) with (c :: t)
      by (cbn [take]; by rewrite take_app_length).
    rewrite Hrepl, re_sub_skip, take_app_length, drop_app_length.
    replace (match last t with Some d => Some d | None => Some c end)
      with (last (c :: t)) by (rewrite last_cons; by destruct (last t)).
    apply (tagged_token prev (c :: t) rest); [done..|].
    apply IH. simpl in Hlen. rewrite length_app in Hlen. lia.
  - apply tagged_char.
    + intros token Htok. by apply pat_severity_None.
    + apply IH. simpl in Hlen. lia.
Qed.

(** C6: the risk text is tagged as the spec says, every whole-word [Low],
    [Medium] or [High] prefixed by its marker and a space and nothing else
    changed; in the spec's example only [Low] is tagged and [Lowest] is
    left as it is. *)
Theorem tag_severity_whole_words (raw_risk : pystr) :
  tagged None raw_risk (tag_severity unicode_alnum raw_risk)
  ∧ tag_severity unicode_alnum (py "Risk: Low overall, Lowest priority")
    = py "Risk: " ++ marker_low :: py " Low overall, Lowest priority".
Proof.
  split; [by apply (re_sub_severity_tagged (length raw_risk))|].
  vm_compute. reflexivity.
Qed.
End SeverityFacts.

(** ** The positions recorded by [__chain_b] *)

(** The positions of [x] in [b], counted from [k], in increasing order. *)
Fixpoint positions_from (k : nat) (x : pystr) (b : list pystr) : list nat :=
  match b with
  | [] => []
  | y :: b' =>
      if decide (y = x) then k :: positions_from (S k) x b'
      else positions_from (S k) x b'
  end.

Fixpoint increasing (js : list nat) : Prop :=
  match js with
  | [] => True
  | j :: js' => (∀ j', j' ∈ js' → j < j') ∧ increasing js'
  end.

Lemma elem_of_positions_from k x b j :
  j ∈ positions_from k x b ↔ k ≤ j ∧ b !! (j - k) = Some x.
Proof.
  revert k. induction b as [|y b IH]; intros k; simpl.
  - split; [by intros ?%elem_of_nil|by intros [_ ?]].
  - assert (j ∈ positions_from (S k) x b
            ↔ k < j ∧ (y :: b) !! (j - k) = Some x) as Htail.
    { rewrite IH. split.
      - intros [Hk Hj]. split; [lia|].
        by replace (j - k) with (S (j - S k)) by lia.
      - intros [Hk Hj]. split; [lia|].
        by replace (j - k) with (S (j - S k)) in Hj by lia. }
    destruct (decide (y = x)) as [->|Hne].
    + rewrite elem_of_cons, Htail. split.
      * intros [->|[Hk Hj]]; [|split; [lia|done]].
        split; [lia|]. by rewrite Nat.sub_diag.
      * intros [Hk Hj]. destruct (decide (j = k)) as [->|]; [by left|].
        right. split; [lia|done].
    + rewrite Htail. split; [intros [Hk Hj]; split; [lia|done]|].
      intros [Hk Hj]. split; [|done].
      destruct (decide (j = k)) as [->|]; [|lia].
      rewrite Nat.sub_diag in Hj. simpl in Hj. congruence.
Qed.

Lemma positions_from_increasing k x b : increasing (positions_from k x b).
Proof.
  revert k. induction b as [|y b IH]; intros k; simpl; [done|].
  destruct (decide (y = x)); [|apply IH]. simpl. split; [|apply IH].
  intros j' [Hj' _]%elem_of_positions_from. lia.
Qed.

(** The positions [foldl b2j_add] adds for [x]. *)
Definition pos_in (l : list (nat * pystr)) (x : pystr) : list nat :=
  (filter (λ ie, ie.2 = x) l).*1.

Lemma foldl_b2j_add_lookup (l : list (nat * pystr)) (m0 : gmap pystr (list nat))
    (x : pystr) :
  foldl b2j_add m0 l !! x
  = match pos_in l x with
    | [] => m0 !! x
    | js => Some (default [] (m0 !! x) ++ js)
    end.
Proof.
  revert m0. induction l as [|[i e] l IH]; intros m0; [done|].
  cbn [foldl]. rewrite IH. unfold pos_in, b2j_add. cbn [fst snd].
  destruct (decide (e = x)) as [->|Hne].
  - rewrite filter_cons_True by done. rewrite lookup_insert_eq, fmap_cons.
    fold (pos_in l x). destruct (pos_in l x); simpl.
    + done.
    + by rewrite <- app_assoc.
  - rewrite filter_cons_False by done. by rewrite lookup_insert_ne.
Qed.

Lemma pos_in_imap (k : nat) (b : list pystr) (x : pystr) :
  pos_in (imap (λ i, pair (k + i)) b) x = positions_from k x b.
Proof.
  revert k. induction b as [|y b IH]; intros k; [done|].
  rewrite imap_cons. unfold pos_in. cbn [positions_from].
  rewrite (imap_ext _ (λ i, pair (S k + i))) by (intros; simpl; f_equal; lia).
  specialize (IH (S k)). unfold pos_in in IH.
  destruct (decide (y = x)) as [Hy|Hy].
  - rewrite filter_cons_True by done. rewrite fmap_cons, IH. simpl. f_equal. lia.
  - rewrite filter_cons_False by done. apply IH.
Qed.

(** What a key of the map built by [__chain_b] holds: all the positions of
    its line, in increasing order. *)
Lemma chain_b_lookup (b : list pystr) (x : pystr) (js : list nat) :
  chain_b b !! x = Some js → js = positions_from 0 x b.
Proof.
  unfold chain_b.
  assert (∀ js, foldl b2j_add ∅ (imap pair b) !! x = Some js →
                js = positions_from 0 x b) as Hall.
  { intros js'. rewrite foldl_b2j_add_lookup, lookup_empty.
    rewrite <- (pos_in_imap 0 b x).
    replace (imap (λ i, pair (0 + i)) b) with (imap pair b) by done.
    destruct (pos_in (imap pair b) x); [done|]. by intros [= <-]. }
  destruct (200 <=? length b); [|apply Hall].
  intros [H _]%map_lookup_filter_Some. by apply Hall.
Qed.

(** ** A sequence matched against itself *)

Section Identical.
Variable a : list pystr.

(** The line at [i] is a key of the map: it is not "popular". *)
Definition keyed (i : nat) : bool :=
  match a !! i with
  | Some x => bool_decide (is_Some (chain_b a !! x))
  | None => false
  end.

(** The length of the run of keyed lines that ends just before [i]. *)
Fixpoint run_before (i : nat) : nat :=
  match i with
  | O => 0
  | S i' => if keyed i' then S (run_before i') else 0
  end.

Lemma run_before_le i : run_before i ≤ i.
Proof. induction i as [|i IH]; simpl; [done|]. destruct (keyed i); lia. Qed.

(** Every entry of [j2len] after [i] rows is bounded by the run of its
    column and by the run of the last row. *)
Definition j2len_ok (i : nat) (j2len : gmap Z nat) : Prop :=
  ∀ z k, j2len !! z = Some k →
    ∃ j, z = Z.of_nat j ∧ k ≤ run_before (S j) ∧ k ≤ run_before i.

(** The best block so far lies on the diagonal and is as long as every run
    seen. *)
Definition best_ok (i : nat) (best : Match) : Prop :=
  best.1.1 = best.1.2 ∧ best.1.1 + best.2 ≤ i
  ∧ ∀ i', i' ≤ i → run_before i' ≤ best.2.

Lemma j2len_before (i j : nat) (j2len : gmap Z nat) :
  j2len_ok i j2len →
  default 0 (j2len !! (Z.of_nat j - 1)%Z) ≤ run_before j
  ∧ default 0 (j2len !! (Z.of_nat j - 1)%Z) ≤ run_before i.
Proof.
  intros Hok. destruct (j2len !! _) as [k0|] eqn:Hk0; simpl; [|lia].
  destruct (Hok _ _ Hk0) as (j0 & Hz & H1 & H2).
  by replace j with (S j0) by lia.
Qed.

Lemma flm_inner_diag (i : nat) (x : pystr) (j2len : gmap Z nat) (js : list nat)
    (new : gmap Z nat) (best : Match) :
  a !! i = Some x → is_Some (chain_b a !! x) →
  j2len_ok i j2len →
  default 0 (j2len !! (Z.of_nat i - 1)%Z) = run_before i →
  increasing js → (∀ j, j ∈ js → a !! j = Some x) →
  j2len_ok (S i) new →
  best.1.1 = best.1.2 → best.1.1 + best.2 ≤ S i →
  (∀ i', i' ≤ i → run_before i' ≤ best.2) →
  (i ∈ js ∨ (run_before (S i) ≤ best.2
             ∧ new !! Z.of_nat i = Some (run_before (S i))
             ∧ ∀ j, j ∈ js → i < j)) →
  j2len_ok (S i) (flm_inner i 0 (length a) j2len js new best).1
  ∧ (flm_inner i 0 (length a) j2len js new best).1 !! Z.of_nat i
    = Some (run_before (S i))
  ∧ best_ok (S i) (flm_inner i 0 (length a) j2len js new best).2.
Proof.
  intros Hi Hkey Hok Hdiag.
  assert (∀ j, a !! j = Some x → run_before (S j) = S (run_before j)) as Hrun.
  { intros j Hj. simpl. unfold keyed. rewrite Hj.
    by rewrite bool_decide_eq_true_2. }
  revert new best. induction js as [|j js IH];
    intros new best Hinc Hmem Hnew Heq Hsum Hmax Hflag.
  - simpl. destruct Hflag as [Hin|(Hbs & Hnewi & _)]; [by apply elem_of_nil in Hin|].
    split; [done|]. split; [done|]. split; [done|]. split; [done|].
    intros i' Hi'. destruct (decide (i' = S i)) as [->|]; [done|]. apply Hmax. lia.
  - destruct Hinc as [Hlt Hinc].
    assert (a !! j = Some x) as Hj by (apply Hmem; left).
    assert (j < length a) as Hjn by (by eapply lookup_lt_Some).
    cbn [flm_inner].
    replace (j <? 0) with false by done.
    replace (length a <=? j) with false by (symmetry; apply Nat.leb_gt; lia).
    pose proof (j2len_before i j j2len Hok) as [Hk1 Hk2].
    set (k := default 0 (j2len !! (Z.of_nat j - 1)%Z) + 1) in *.
    assert (k ≤ run_before (S j) ∧ k ≤ run_before (S i)) as [Hkj Hki].
    { rewrite (Hrun j Hj), (Hrun i Hi). subst k. lia. }
    assert (j2len_ok (S i) (<[Z.of_nat j:=k]> new)) as Hnew'.
    { intros z k' [[<- <-]|[_ Hz]]%lookup_insert_Some; [by exists j|by apply Hnew]. }
    destruct (decide (j = i)) as [->|Hne].
    + assert (k = run_before (S i)) as Hk.
      { rewrite (Hrun i Hi). subst k. rewrite Hdiag. lia. }
      apply IH; [done|by intros; apply Hmem; right|done|..].
      * destruct (best.2 <? k); [done|done].
      * destruct (best.2 <? k); [|done]. cbn [fst snd].
        pose proof (run_before_le (S i)). lia.
      * intros i' Hi'. specialize (Hmax i' Hi').
        destruct (Nat.ltb_spec best.2 k); cbn [snd]; lia.
      * right. split; [|split; [by rewrite lookup_insert_eq, Hk|done]].
        destruct (Nat.ltb_spec best.2 k); cbn [snd]; lia.
    + assert (k ≤ best.2) as Hkb.
      { destruct (decide (j < i)) as [Hji|Hji].
        - specialize (Hmax (S j) ltac:(lia)). lia.
        - destruct Hflag as [[->|Hin]%elem_of_cons|(Hbs & _)]; [done| |lia].
          specialize (Hlt i Hin). lia. }
      replace (best.2 <? k) with false by (symmetry; apply Nat.ltb_ge; lia).
      apply IH; [done|by intros; apply Hmem; right|done..|].
      destruct Hflag as [[->|Hin]%elem_of_cons|(Hbs & Hnewi & Hall)]; [done|by left|].
      right. split; [done|]. split; [|by intros; apply Hall; right].
      rewrite lookup_insert_ne; [done|lia].
Qed.

(** The state of [find_longest_match] after [i] rows. *)
Definition rows_ok (i : nat) (st : gmap Z nat * Match) : Prop :=
  j2len_ok i st.1
  ∧ default 0 (st.1 !! (Z.of_nat i - 1)%Z) = run_before i
  ∧ best_ok i st.2.

Lemma flm_row_diag (i : nat) (st : gmap Z nat * Match) :
  i < length a → rows_ok i st →
  rows_ok (S i) (flm_row a (chain_b a) 0 (length a) st i).
Proof.
  intros Hi (Hok & Hdiag & Heq & Hsum & Hmax). unfold flm_row, rows_ok.
  destruct (lookup_lt_is_Some_2 a i Hi) as [x Hx]. rewrite Hx.
  replace (Z.of_nat (S i) - 1)%Z with (Z.of_nat i) by lia.
  destruct (chain_b a !! x) as [js|] eqn:Hjs; cbn [default from_option id].
  - pose proof (chain_b_lookup a x js Hjs) as ->.
    destruct (flm_inner_diag i x st.1 (positions_from 0 x a) ∅ st.2 Hx
                ltac:(by rewrite Hjs) Hok Hdiag (positions_from_increasing 0 x a))
      as (H1 & H2 & H3).
    + intros j [_ Hj]%elem_of_positions_from. by rewrite Nat.sub_0_r in Hj.
    + by intros z k ?.
    + done.
    + lia.
    + done.
    + left. apply elem_of_positions_from. split; [lia|]. by rewrite Nat.sub_0_r.
    + split; [done|]. split; [by rewrite H2|done].
  - assert (run_before (S i) = 0) as Hrun.
    { simpl. unfold keyed. rewrite Hx, Hjs. by rewrite bool_decide_eq_false_2
        by (by intros [? ?]). }
    cbn [flm_inner fst snd]. split; [done|]. split; [by rewrite lookup_empty|].
    split; [done|]. split; [lia|].
    intros i' Hi'. destruct (decide (i' = S i)) as [->|]; [lia|]. apply Hmax. lia.
Qed.

Lemma flm_rows_diag (m : nat) :
  m ≤ length a →
  rows_ok m (foldl (flm_row a (chain_b a) 0 (length a)) (∅, (0, 0, 0)) (seq 0 m)).
Proof.
  induction m as [|m IH]; intros Hm.
  - simpl. split; [done|]. split; [done|].
    split; [done|]. split; [done|]. intros i' Hi'. by replace i' with 0 by lia.
  - rewrite seq_S, foldl_app. simpl. apply flm_row_diag; [lia|]. apply IH. lia.
Qed.

Lemma extend_back_same (junk : bool) (bi bs : nat) :
  junk = false → bi ≤ length a →
  extend_back a a junk 0 0 bi bi bs = (0, 0, bs + bi).
Proof.
  intros -> . revert bs. induction bi as [|bi IH]; intros bs Hbi.
  - simpl. by rewrite Nat.add_0_r.
  - cbn [extend_back]. replace (S bi - 1) with bi by lia.
    destruct (lookup_lt_is_Some_2 a bi ltac:(lia)) as [x Hx]. rewrite Hx.
    cbn [isbjunk elt_eqb]. unfold bjunk.
    rewrite bool_decide_eq_false_2 by set_solver.
    rewrite bool_decide_eq_true_2 by done. simpl.
    rewrite IH by lia. f_equal. lia.
Qed.

Lemma extend_fwd_same (m s : nat) :
  s + m = length a → extend_fwd a a false m (length a) (length a) 0 0 s = length a.
Proof.
  revert s. induction m as [|m IH]; intros s Hs; simpl; [lia|].
  replace (s <? length a) with true by (symmetry; apply Nat.ltb_lt; lia).
  destruct (lookup_lt_is_Some_2 a s ltac:(lia)) as [x Hx]. rewrite Hx.
  cbn [isbjunk elt_eqb]. unfold bjunk.
  rewrite bool_decide_eq_false_2 by set_solver.
  rewrite bool_decide_eq_true_2 by done. simpl.
  apply IH. lia.
Qed.

(** A sequence against itself: the longest match is the whole of it, the
    popular lines included. *)
Lemma find_longest_match_same :
  find_longest_match a a (chain_b a) 0 (length a) 0 (length a) = (0, 0, length a).
Proof.
  unfold find_longest_match. rewrite Nat.sub_0_r.
  destruct (flm_rows_diag (length a) ltac:(done)) as (_ & _ & Heq & Hsum & _).
  destruct (foldl _ _ _) as [j2len [[bi bj] bs]]. cbn [fst snd] in *. subst bj.
  unfold extend at 2. rewrite extend_back_same by (done || lia).
  cbn [Nat.add]. rewrite extend_fwd_same by lia.
  unfold extend. cbn [extend_back]. by rewrite Nat.sub_diag.
Qed.

Lemma get_matching_blocks_same :
  get_matching_blocks a a
  = match a with
    | [] => [(0, 0, 0)]
    | _ :: _ => [(0, 0, length a); (length a, length a, 0)]
    end.
Proof.
  unfold get_matching_blocks, matching_fuel.
  replace (2 * length a + 1) with (S (2 * length a)) by lia.
  cbn [matching_loop]. rewrite find_longest_match_same.
  destruct a as [|x l]; [done|]. cbn [length].
  replace (0 + S (length l) <? S (length l)) with false
    by (symmetry; apply Nat.ltb_ge; lia).
  replace (0 <? 0) with false by done. cbn [andb].
  assert (∀ f, matching_loop (x :: l) (x :: l) (chain_b (x :: l)) f []
                 ([] ++ [(0, 0, S (length l))])
               = ([], [(0, 0, S (length l))])) as -> by (by intros []).
  done.
Qed.

Lemma get_opcodes_same :
  get_opcodes a a
  = match a with
    | [] => []
    | _ :: _ => [(Equal, 0, length a, 0, length a)]
    end.
Proof.
  unfold get_opcodes. rewrite get_matching_blocks_same.
  destruct a as [|x l]; [done|].
  assert (length (x :: l) ≠ 0) as Hn by done.
  remember (length (x :: l)) as n. cbn [opcodes_from].
  rewrite !Nat.add_0_l, !Nat.add_0_r, !Nat.ltb_irrefl.
  replace (n =? 0) with false by (symmetry; by apply Nat.eqb_neq).
  reflexivity.
Qed.

Lemma get_grouped_opcodes_same : get_grouped_opcodes a a 3 = [].
Proof.
  unfold get_grouped_opcodes. rewrite get_opcodes_same.
  destruct a as [|x l]; [done|].
  remember (length (x :: l)) as n.
  cbn [fix_first fix_last group_loop is_equal andb].
  replace (3 + 3 <? _) with false; [done|].
  symmetry. apply Nat.ltb_ge. lia.
Qed.
End Identical.

(** C9: identical snapshots give an edit script with no operation at all
    (so no ADD and no REMOVE), an empty diff, and 0 lines added and
    removed. *)
Theorem identical_snapshots_no_change (t1 t2 code : pystr) :
  compute_diff (splitlines code) (splitlines code) = []
  ∧ count_ops ADD (compute_diff (splitlines code) (splitlines code)) = 0
  ∧ count_ops REMOVE (compute_diff (splitlines code) (splitlines code)) = 0
  ∧ full_diff_text t1 t2 code code = []
  ∧ lines_added (change_metrics t1 t2 code code) = 0
  ∧ lines_removed (change_metrics t1 t2 code code) = 0.
Proof.
  assert (compute_diff (splitlines code) (splitlines code) = []) as Hd
    by (unfold compute_diff; by rewrite get_grouped_opcodes_same).
  assert (full_diff_text t1 t2 code code = []) as Ht
    by (unfold full_diff_text, unified_diff; by rewrite get_grouped_opcodes_same).
  rewrite Hd. unfold change_metrics. rewrite Ht. done.
Qed.

(** * Further properties of the code *)

(** ** [find_longest_match] stays inside its ranges, and the loop of
    [get_matching_blocks] ends *)

Section MatcherBounds.
Variables a b : list pystr.
Variable b2j : gmap pystr (list nat).

(** The entries of [j2len] after [m] rows of the range that starts at
    column [blo]: a run is no longer than the rows seen, and fits between
    [blo] and its column. *)
Definition j2len_within (blo m : nat) (j2len : gmap Z nat) : Prop :=
  ∀ z k, j2len !! z = Some k →
    ∃ j, z = Z.of_nat j ∧ blo ≤ j ∧ k ≤ m ∧ k ≤ j + 1 - blo.

(** The best block lies inside rows [alo .. top) and columns [blo .. bhi). *)
Definition best_within (alo top blo bhi : nat) (best : Match) : Prop :=
  alo ≤ best.1.1 ∧ best.1.1 + best.2 ≤ top
  ∧ blo ≤ best.1.2 ∧ best.1.2 + best.2 ≤ bhi.

Lemma flm_inner_within (i alo blo bhi : nat) (j2len : gmap Z nat)
    (js : list nat) (new : gmap Z nat) (best : Match) :
  alo ≤ i →
  j2len_within blo (i - alo) j2len →
  j2len_within blo (S i - alo) new →
  best_within alo (S i) blo bhi best →
  j2len_within blo (S i - alo) (flm_inner i blo bhi j2len js new best).1
  ∧ best_within alo (S i) blo bhi (flm_inner i blo bhi j2len js new best).2.
Proof.
  intros Hi Hold. revert new best.
  induction js as [|j js IH]; intros new best Hnew Hbest; [done|].
  cbn [flm_inner].
  destruct (Nat.ltb_spec j blo) as [|Hblo]; [by apply IH|].
  destruct (Nat.leb_spec bhi j) as [|Hbhi]; [done|].
  set (k := default 0 (j2len !! (Z.of_nat j - 1)%Z) + 1).
  assert (k ≤ S i - alo ∧ k ≤ j + 1 - blo) as [Hk1 Hk2].
  { subst k. destruct (j2len !! _) as [k0|] eqn:Hk0; simpl; [|lia].
    destruct (Hold _ _ Hk0) as (j0 & Hz & Hj0 & H1 & H2). lia. }
  apply IH.
  - intros z k' [[<- <-]|[_ Hz]]%lookup_insert_Some; [by exists j|by apply Hnew].
  - destruct (Nat.ltb_spec best.2 k); [|done].
    unfold best_within. cbn [fst snd]. lia.
Qed.

Lemma flm_rows_within (alo blo bhi m : nat) :
  blo ≤ bhi →
  let st := foldl (flm_row a b2j blo bhi) (∅, (alo, blo, 0)) (seq alo m) in
  j2len_within blo m st.1 ∧ best_within alo (alo + m) blo bhi st.2.
Proof.
  intros Hb. induction m as [|m IH]; cbn zeta.
  - simpl. split; [done|]. unfold best_within. simpl. lia.
  - rewrite seq_S, foldl_app. cbn [foldl]. cbn zeta in IH.
    destruct IH as [H1 H2]. unfold flm_row at 1 3.
    replace (alo + S m) with (S (alo + m)) by lia.
    replace (S m) with (S (alo + m) - alo) by lia.
    apply flm_inner_within; [lia| | |].
    + by replace (alo + m - alo) with m by lia.
    + done.
    + destruct H2 as (? & ? & ? & ?). unfold best_within. lia.
Qed.

Lemma extend_back_within (junk : bool) (alo blo bi bj bs : nat) :
  alo ≤ bi → blo ≤ bj →
  alo ≤ (extend_back a b junk alo blo bi bj bs).1.1
  ∧ blo ≤ (extend_back a b junk alo blo bi bj bs).1.2
  ∧ (extend_back a b junk alo blo bi bj bs).1.1
    + (extend_back a b junk alo blo bi bj bs).2 = bi + bs
  ∧ (extend_back a b junk alo blo bi bj bs).1.2
    + (extend_back a b junk alo blo bi bj bs).2 = bj + bs.
Proof.
  revert bj bs. induction bi as [|bi IH]; intros bj bs Hi Hj; [simpl; lia|].
  cbn [extend_back].
  destruct (Nat.ltb_spec alo (S bi)) as [Ha|]; [|simpl; lia].
  destruct (Nat.ltb_spec blo bj) as [Hb|]; [|simpl; lia].
  destruct (_ && _); [|simpl; lia].
  destruct (IH (bj - 1) (bs + 1)) as (H1 & H2 & H3 & H4); lia.
Qed.

Lemma extend_fwd_within (junk : bool) (n ahi bhi bi bj bs : nat) :
  bi + bs ≤ ahi → bj + bs ≤ bhi →
  bs ≤ extend_fwd a b junk n ahi bhi bi bj bs
  ∧ bi + extend_fwd a b junk n ahi bhi bi bj bs ≤ ahi
  ∧ bj + extend_fwd a b junk n ahi bhi bi bj bs ≤ bhi.
Proof.
  revert bs. induction n as [|n IH]; intros bs Hi Hj; [simpl; lia|].
  cbn [extend_fwd].
  destruct (Nat.ltb_spec (bi + bs) ahi) as [Ha|]; [|simpl; lia].
  destruct (Nat.ltb_spec (bj + bs) bhi) as [Hb|]; [|simpl; lia].
  destruct (_ && _); [|simpl; lia].
  destruct (IH (bs + 1)) as (H1 & H2 & H3); lia.
Qed.

Lemma extend_within (junk : bool) (alo ahi blo bhi : nat) (m : Match) :
  best_within alo ahi blo bhi m →
  best_within alo ahi blo bhi (extend a b junk alo ahi blo bhi m).
Proof.
  destruct m as [[bi bj] bs]. intros (H1 & H2 & H3 & H4). cbn [fst snd] in *.
  unfold extend.
  pose proof (extend_back_within junk alo blo bi bj bs H1 H3) as (B1 & B2 & B3 & B4).
  destruct (extend_back a b junk alo blo bi bj bs) as [[bi' bj'] bs'].
  cbn [fst snd] in *.
  pose proof (extend_fwd_within junk (ahi - (bi' + bs')) ahi bhi bi' bj' bs'
                ltac:(lia) ltac:(lia)) as (F1 & F2 & F3).
  unfold best_within. cbn [fst snd]. lia.
Qed.

(** The block [find_longest_match] returns lies inside the two ranges it
    was given. *)
Lemma find_longest_match_within (alo ahi blo bhi : nat) :
  alo ≤ ahi → blo ≤ bhi →
  best_within alo ahi blo bhi (find_longest_match a b b2j alo ahi blo bhi).
Proof.
  intros Ha Hb. unfold find_longest_match.
  apply extend_within, extend_within.
  pose proof (flm_rows_within alo blo bhi (ahi - alo) Hb) as [_ H].
  cbn zeta in H. by replace (alo + (ahi - alo)) with ahi in H by lia.
Qed.

Definition range_ok (r : nat * nat * nat * nat) : Prop :=
  r.1.1.1 ≤ r.1.1.2 ∧ r.1.2 ≤ r.2.

(** Twice the rows of every range waiting, plus one each: it drops at
    every turn of the loop. *)
Definition queue_weight (queue : list (nat * nat * nat * nat)) : nat :=
  sum_list_with (λ r, 2 * (r.1.1.2 - r.1.1.1) + 1) queue.

Lemma matching_loop_ends (fuel : nat) (queue : list (nat * nat * nat * nat))
    (blocks : list Match) :
  Forall range_ok queue → queue_weight queue ≤ fuel →
  (matching_loop a b b2j fuel queue blocks).1 = [].
Proof.
  revert queue blocks. induction fuel as [|fuel IH]; intros queue blocks Hok Hw.
  - destruct queue as [|r q]; [done|]. unfold queue_weight in Hw. simpl in Hw. lia.
  - destruct queue as [|[[[alo ahi] blo] bhi] q]; [done|].
    apply Forall_cons in Hok as [[Ha Hb] Hok]. cbn [fst snd] in Ha, Hb.
    unfold queue_weight in Hw. cbn [sum_list_with fst snd] in Hw.
    fold (queue_weight q) in Hw. cbn [matching_loop].
    pose proof (find_longest_match_within alo ahi blo bhi Ha Hb) as (B1 & B2 & B3 & B4).
    destruct (find_longest_match a b b2j alo ahi blo bhi) as [[i j] k].
    cbn [fst snd] in *. destruct k as [|k]; [apply IH; [done|lia]|].
    assert (range_ok (alo, i, blo, j)) as Hleft
      by (unfold range_ok; cbn [fst snd]; lia).
    assert (range_ok (i + S k, ahi, j + S k, bhi)) as Hright
      by (unfold range_ok; cbn [fst snd]; lia).
    apply IH.
    + destruct (_ && _), (_ && _); repeat (constructor; [done|]); done.
    + destruct (_ && _), (_ && _); unfold queue_weight;
        cbn [sum_list_with fst snd]; fold (queue_weight q); lia.
Qed.

(** With the loop ended, more fuel changes nothing. *)
Lemma matching_loop_more_fuel (fuel extra : nat)
    (queue : list (nat * nat * nat * nat)) (blocks : list Match) :
  (matching_loop a b b2j fuel queue blocks).1 = [] →
  matching_loop a b b2j (fuel + extra) queue blocks
  = matching_loop a b b2j fuel queue blocks.
Proof.
  revert queue blocks. induction fuel as [|fuel IH]; intros queue blocks Hend.
  - simpl in Hend. subst queue. by destruct extra.
  - cbn [Nat.add matching_loop] in *. destruct queue as [|[[[alo ahi] blo] bhi] q]; [done|].
    destruct (find_longest_match a b b2j alo ahi blo bhi) as [[i j] [|k]];
      by apply IH.
Qed.
End MatcherBounds.

(** The loop of [get_matching_blocks] empties its queue within the fuel the
    model gives it, whatever the two sequences, and a larger fuel gives the
    same blocks: the fuel never cuts the computation short. *)
Theorem matching_loop_terminates (a b : list pystr) (extra : nat) :
  (matching_loop a b (chain_b b) (matching_fuel a)
     [(0, length a, 0, length b)] []).1 = []
  ∧ matching_loop a b (chain_b b) (matching_fuel a + extra)
      [(0, length a, 0, length b)] []
    = matching_loop a b (chain_b b) (matching_fuel a)
        [(0, length a, 0, length b)] [].
Proof.
  assert ((matching_loop a b (chain_b b) (matching_fuel a)
             [(0, length a, 0, length b)] []).1 = []) as Hend.
  { apply matching_loop_ends.
    - apply Forall_cons. split; [|done]. unfold range_ok. simpl. lia.
    - unfold queue_weight, matching_fuel. simpl. lia. }
  split; [done|]. by apply matching_loop_more_fuel.
Qed.

(** ** What the counts of lines 654-655 count *)

(** No line boundary in the text. *)
Definition no_break (l : pystr) : Prop := Forall (λ c, is_linebreak c = false) l.

Lemma splitlines_no_break (s : pystr) : Forall no_break (splitlines s).
Proof.
  assert (∀ n s, length s ≤ n → Forall no_break (splitlines s)) as H;
    [|by apply (H (length s))].
  clear s. induction n as [|n IH]; intros s Hn.
  { destruct s; [constructor|simpl in Hn; lia]. }
  destruct s as [|c s]; [constructor|]. simpl in Hn. cbn [splitlines].
  destruct (is_linebreak c) eqn:Hc.
  - constructor; [constructor|].
    destruct s as [|c' s']; [constructor|].
    destruct (_ && _); apply IH; simpl in *; lia.
  - pose proof (IH s ltac:(lia)) as Hs.
    destruct (splitlines s) as [|l ls]; [by repeat constructor|].
    apply Forall_cons in Hs as [Hl Hls]. constructor; [by constructor|done].
Qed.

Lemma splitlines_app_lf (x s : pystr) :
  no_break x → splitlines (x ++ LF :: s) = x :: splitlines s.
Proof.
  induction 1 as [|c x Hc _ IH]; simpl.
  - by destruct s.
  - by rewrite Hc, IH.
Qed.

Lemma splitlines_one (x : pystr) : x ≠ [] → no_break x → splitlines x = [x].
Proof.
  intros Hne Hx. induction Hx as [|c x Hc Hx IH]; [done|]. simpl. rewrite Hc.
  destruct x as [|d x]; [done|]. by rewrite IH.
Qed.

(** Joining lines with [\n] and splitting again gives the lines back, when
    none is empty or holds a line boundary. *)
Lemma splitlines_join (ls : list pystr) :
  Forall (λ l, l ≠ [] ∧ no_break l) ls → splitlines (join [LF] ls) = ls.
Proof.
  induction 1 as [|x ls [Hne Hx] Hls IH]; [done|]. cbn [join].
  destruct ls as [|y ls]; [by apply splitlines_one|].
  cbn [app]. by rewrite splitlines_app_lf, IH.
Qed.

Definition is_digit (c : N) : Prop := (0x30 ≤ c ∧ c ≤ 0x39)%N.

Lemma digits_fuel_digits (fuel : nat) (n : N) (acc : pystr) :
  Forall is_digit acc → Forall is_digit (digits_fuel fuel n acc).
Proof.
  revert n acc. induction fuel as [|fuel IH]; intros n acc Hacc; [done|].
  cbn [digits_fuel].
  assert (Forall is_digit ((0x30 + n mod 10)%N :: acc)) as Hacc'.
  { constructor; [|done]. unfold is_digit.
    assert (n mod 10 < 10)%N as Hlt by (by apply N.mod_upper_bound).
    revert Hlt. generalize (n mod 10)%N. intros r Hr. lia. }
  destruct (n / 10 =? 0)%N; [done|]. by apply IH.
Qed.

Lemma str_of_nat_no_break (n : nat) : no_break (str_of_nat n).
Proof.
  unfold str_of_nat, no_break.
  eapply Forall_impl; [apply digits_fuel_digits; constructor|].
  intros c [H1 H2]. unfold is_linebreak.
  repeat (apply orb_false_intro); apply N.eqb_neq; lia.
Qed.

Lemma no_break_app (x y : pystr) : no_break x → no_break y → no_break (x ++ y).
Proof. apply Forall_app_2. Qed.

Lemma format_range_unified_no_break (start stop : nat) :
  no_break (format_range_unified start stop).
Proof.
  unfold format_range_unified. destruct (_ =? 1); [apply str_of_nat_no_break|].
  repeat apply no_break_app; try apply str_of_nat_no_break.
  by repeat constructor.
Qed.

Lemma elem_of_slice {A} (l : list A) (i1 i2 : nat) (x : A) :
  x ∈ slice l i1 i2 → x ∈ l.
Proof.
  unfold slice. intros H.
  eapply elem_of_sublist; [done|].
  etrans; [apply sublist_take|apply sublist_drop].
Qed.

Lemma elem_of_concat {A} (x : A) (ls : list (list A)) :
  x ∈ concat ls → ∃ l, x ∈ l ∧ l ∈ ls.
Proof.
  induction ls as [|l ls IH]; simpl; [by intros ?%elem_of_nil|].
  intros [H|H]%elem_of_app.
  - exists l. split; [done|left].
  - destruct (IH H) as (l' & ? & ?). exists l'. split; [done|by right].
Qed.

Lemma group_ops_lines (a b : list pystr) (group : list opcode) (o : EditOp) :
  o ∈ group_ops a b group → o.2 ∈ a ∨ o.2 ∈ b.
Proof.
  unfold group_ops. intros (ops & Ho & (c & -> & _)%list_elem_of_fmap)%elem_of_concat.
  destruct c as [[[[t i1] i2] j1] j2]. unfold opcode_ops in Ho.
  destruct t;
    repeat match goal with
    | H : _ ∈ _ ++ _ |- _ => apply elem_of_app in H as [H|H]
    | H : _ ∈ _ <$> _ |- _ => apply list_elem_of_fmap in H as (t' & -> & H)
    end; simpl; first [left; by eapply elem_of_slice | right; by eapply elem_of_slice].
Qed.

(** Every line [unified_diff] yields is non-empty and free of line
    boundaries, when the titles and the input lines are. *)
Lemma unified_diff_lines (a b : list pystr) (fromfile tofile : pystr) :
  no_break fromfile → no_break tofile → Forall no_break a → Forall no_break b →
  Forall (λ l, l ≠ [] ∧ no_break l) (unified_diff a b fromfile tofile []).
Proof.
  intros Hf Ht Ha Hb. unfold unified_diff.
  destruct (get_grouped_opcodes a b 3) as [|g gs]; [constructor|].
  constructor; [|constructor].
  - split; [done|]. repeat apply no_break_app; try done; by repeat constructor.
  - split; [done|]. repeat apply no_break_app; try done; by repeat constructor.
  - apply Forall_forall.
    intros l (ls & Hl & (grp & -> & _)%list_elem_of_fmap)%elem_of_concat.
    unfold hunk_lines in Hl. destruct grp as [|first rest]; [by apply elem_of_nil in Hl|].
    destruct (last (first :: rest)) as [lst|]; [|by apply elem_of_nil in Hl].
    destruct first as [[[[? f1] ?] f3] ?], lst as [[[[? ?] l2] ?] l4].
    apply elem_of_cons in Hl as [->|Hl].
    + split; [done|].
      repeat apply no_break_app;
        try apply format_range_unified_no_break; by repeat constructor.
    + apply list_elem_of_fmap in Hl as (o & -> & Ho). split; [done|].
      constructor; [by destruct o as [[] ?]|].
      apply group_ops_lines in Ho as [Ho|Ho].
      * by eapply (proj1 (Forall_forall _ _) Ha).
      * by eapply (proj1 (Forall_forall _ _) Hb).
Qed.

(** The content operations of kind [k] that the counts see: those whose
    line does not itself start with the mark twice. *)
Definition counted_ops (k : op_kind) (script : list EditOp) : nat :=
  length (filter (λ o, o.1 = k
                       ∧ startswith o.2 [op_prefix k; op_prefix k] = false) script).

Lemma count_marked_app mark header (l1 l2 : list pystr) :
  count_marked mark header (l1 ++ l2)
  = count_marked mark header l1 + count_marked mark header l2.
Proof. unfold count_marked. by rewrite filter_app, length_app. Qed.

Lemma counted_ops_app k (s1 s2 : list EditOp) :
  counted_ops k (s1 ++ s2) = counted_ops k s1 + counted_ops k s2.
Proof. unfold counted_ops. by rewrite filter_app, length_app. Qed.

Lemma startswith_nil (s : pystr) : startswith s [] = true.
Proof. by destruct s. Qed.

(** A content line is counted for the kind [k] exactly when it is an
    operation of that kind whose text does not start with the mark twice. *)
Lemma op_line_marked (k : op_kind) (o : EditOp) :
  k ≠ CONTEXT →
  startswith (op_line o) [op_prefix k]
  && negb (startswith (op_line o) [op_prefix k; op_prefix k; op_prefix k])
  ↔ o.1 = k ∧ startswith o.2 [op_prefix k; op_prefix k] = false.
Proof.
  intros Hk. destruct o as [k' t]. unfold op_line. cbn [fst snd startswith].
  rewrite startswith_nil.
  destruct (decide (k' = k)) as [->|Hne].
  - rewrite N.eqb_refl. cbn [andb].
    destruct (startswith t _); simpl; intuition congruence.
  - replace (op_prefix k =? op_prefix k')%N with false by (by destruct k, k').
    simpl. intuition congruence.
Qed.

Lemma count_marked_op_lines (k : op_kind) (ops : list EditOp) :
  k ≠ CONTEXT →
  count_marked [op_prefix k] [op_prefix k; op_prefix k; op_prefix k]
    (op_line <$> ops)
  = counted_ops k ops.
Proof.
  intros Hk. unfold count_marked, counted_ops.
  induction ops as [|o ops IH]; [done|]. rewrite fmap_cons, !filter_cons.
  pose proof (op_line_marked k o Hk) as Ho.
  destruct (decide _) as [H1|H1], (decide _) as [H2|H2];
    rewrite ?length_cons, IH; tauto.
Qed.

(** The lines of the preamble and the hunk headers are not counted. *)
Definition uncounted (k : op_kind) (l : pystr) : Prop :=
  ¬ (startswith l [op_prefix k]
     && negb (startswith l [op_prefix k; op_prefix k; op_prefix k])).

Lemma uncounted_headers (k : op_kind) (title range1 range2 : pystr) :
  k ≠ CONTEXT →
  uncounted k (py "--- " ++ title ++ [])
  ∧ uncounted k (py "+++ " ++ title ++ [])
  ∧ uncounted k (py "@@ -" ++ range1 ++ py " +" ++ range2 ++ py " @@" ++ []).
Proof.
  intros Hk. unfold uncounted.
  destruct k; [| |done]; repeat split; vm_compute; tauto.
Qed.

Lemma count_marked_hunks (k : op_kind) (a b : list pystr) (groups : list (list opcode)) :
  k ≠ CONTEXT →
  count_marked [op_prefix k] [op_prefix k; op_prefix k; op_prefix k]
    (concat (hunk_lines a b [] <$> groups))
  = counted_ops k (concat (group_ops a b <$> groups)).
Proof.
  intros Hk. induction groups as [|g gs IH]; [done|].
  rewrite !fmap_cons. cbn [concat]. rewrite count_marked_app, counted_ops_app, IH.
  f_equal. unfold hunk_lines. destruct g as [|first rest]; [done|].
  destruct (last (first :: rest)) as [lst|] eqn:Hlast.
  - destruct first as [[[[? f1] ?] f3] ?], lst as [[[[? ?] l2] ?] l4].
    rewrite <- (count_marked_op_lines k) by done.
    unfold count_marked at 1. rewrite filter_cons, decide_False; [done|].
    apply (uncounted_headers k [] (format_range_unified f1 l2)
             (format_range_unified f3 l4) Hk).
  - by rewrite last_cons in Hlast; destruct (last rest).
Qed.

(** When the titles hold no line boundary, [lines_added] is the number of
    ADD operations of the edit script whose line does not start with [++],
    and [lines_removed] the number of REMOVE operations whose line does not
    start with [--]: the preamble and the hunk headers are never counted,
    and no count exceeds the number of operations of its kind. *)
Theorem counted_lines_exact (t1 t2 old new : pystr) :
  no_break t1 → no_break t2 →
  lines_added (change_metrics t1 t2 old new)
  = counted_ops ADD (compute_diff (splitlines old) (splitlines new))
  ∧ lines_removed (change_metrics t1 t2 old new)
    = counted_ops REMOVE (compute_diff (splitlines old) (splitlines new))
  ∧ lines_added (change_metrics t1 t2 old new)
    ≤ count_ops ADD (compute_diff (splitlines old) (splitlines new))
  ∧ lines_removed (change_metrics t1 t2 old new)
    ≤ count_ops REMOVE (compute_diff (splitlines old) (splitlines new)).
Proof.
  intros H1 H2.
  assert (∀ k, k ≠ CONTEXT →
    count_marked [op_prefix k] [op_prefix k; op_prefix k; op_prefix k]
      (splitlines (full_diff_text t1 t2 old new))
    = counted_ops k (compute_diff (splitlines old) (splitlines new))) as Hcount.
  { intros k Hk. unfold full_diff_text.
    rewrite splitlines_join
      by (apply unified_diff_lines; auto using splitlines_no_break).
    unfold unified_diff, compute_diff.
    destruct (get_grouped_opcodes _ _ 3) as [|g gs] eqn:Hg; [done|].
    rewrite <- (count_marked_hunks k) by done.
    unfold count_marked at 1.
    rewrite filter_cons, decide_False by apply (uncounted_headers k t1 [] [] Hk).
    rewrite filter_cons, decide_False by apply (uncounted_headers k t2 [] [] Hk).
    done. }
  assert (∀ k script, counted_ops k script ≤ count_ops k script) as Hle.
  { intros k script. unfold counted_ops, count_ops.
    induction script as [|o s IH]; [done|]. rewrite !filter_cons.
    destruct (decide _) as [[? ?]|?], (decide _) as [?|?];
      rewrite ?length_cons;
      first [ done | exact IH | by apply le_n_S | by apply Nat.le_le_succ_r ]. }
  assert (lines_added (change_metrics t1 t2 old new)
          = counted_ops ADD (compute_diff (splitlines old) (splitlines new))) as Ha
    by (by apply (Hcount ADD)).
  assert (lines_removed (change_metrics t1 t2 old new)
          = counted_ops REMOVE (compute_diff (splitlines old) (splitlines new))) as Hr
    by (by apply (Hcount REMOVE)).
  rewrite Ha, Hr. auto.
Qed.

(** [counted_lines_exact] on the titles "old" and "new" and the texts
    a, b, c and a, x, c, d. *)
Lemma counted_lines_exact_abc_axcd :
  lines_added (change_metrics (py "old") (py "new") text_abc text_axcd)
  = counted_ops ADD (compute_diff (splitlines text_abc) (splitlines text_axcd))
  ∧ lines_removed (change_metrics (py "old") (py "new") text_abc text_axcd)
    = counted_ops REMOVE (compute_diff (splitlines text_abc) (splitlines text_axcd))
  ∧ lines_added (change_metrics (py "old") (py "new") text_abc text_axcd)
    ≤ count_ops ADD (compute_diff (splitlines text_abc) (splitlines text_axcd))
  ∧ lines_removed (change_metrics (py "old") (py "new") text_abc text_axcd)
    ≤ count_ops REMOVE (compute_diff (splitlines text_abc) (splitlines text_axcd)).
Proof.
  apply (counted_lines_exact (py "old") (py "new") text_abc text_axcd);
    unfold no_break; repeat constructor.
Defined.


(** ** The sanitizer only deletes, and leaves clean text alone *)

Lemma tag_free_has_tag (s : pystr) : tag_free s = false → has_tag s.
Proof.
  induction s as [|c s IH]; [done|]. simpl tag_free.
  intros [Hc|Hs]%andb_false_iff.
  - apply bool_decide_eq_false in Hc.
    destruct (decide (c = LT)) as [->|Hne]; [|by rewrite pat_tag_other in Hc].
    rewrite pat_tag_lt_None in Hc. unfold opens_no_tag in Hc.
    assert (GT ∈ s) as Hin by (destruct (decide (GT ∈ s)); [done|tauto]).
    apply list_elem_of_split_l in Hin as (body & post & -> & Hbody).
    exists [], body, post. split; [done|]. split; [|done].
    intros ->. apply Hc. right. by left.
  - destruct (IH Hs) as (pre & body & post & -> & ? & ?).
    by exists (c :: pre), body, post.
Qed.

Lemma tag_removal_id (prev : option N) (s : pystr) :
  tag_free s = true → re_sub pat_tag (λ _, []) prev 0 s = s.
Proof.
  revert prev. induction s as [|c s IH]; intros prev; [done|].
  simpl tag_free. intros [Hc Hs]%andb_true_iff.
  apply bool_decide_eq_true in Hc. cbn [re_sub].
  change (pat_tag prev (c :: s)) with (pat_tag None (c :: s)).
  rewrite Hc. by rewrite IH.
Qed.

Lemma filter_all {A} (P : A → Prop) `{!∀ x, Decision (P x)} (l : list A) :
  Forall P l → filter P l = l.
Proof.
  induction 1 as [|x l Hx _ IH]; [done|]. by rewrite filter_cons_True, IH.
Qed.

(** The sanitizer never adds or reorders characters: its result is a
    subsequence of the text.  A text that is already clean (at most
    [MAX_CHARS] characters, all 7-bit, no tag) comes back unchanged, so
    sanitizing twice, as [feature_4] does with the diff, is the same as
    sanitizing once. *)
Theorem clean_and_truncate_prompt_deletes_only (text : pystr) :
  clean_and_truncate_prompt text `sublist_of` text
  ∧ (length text ≤ MAX_CHARS → Forall seven_bit text → ¬ has_tag text →
     clean_and_truncate_prompt text = text)
  ∧ clean_and_truncate_prompt (clean_and_truncate_prompt text)
    = clean_and_truncate_prompt text.
Proof.
  assert (∀ t, length t ≤ MAX_CHARS → Forall seven_bit t → ¬ has_tag t →
               clean_and_truncate_prompt t = t) as Hid.
  { intros t Hlen H7 Htag.
    unfold clean_and_truncate_prompt, clean_and_truncate_prompt_at.
    rewrite tag_removal_id.
    - rewrite non_ascii_removal_filter by lia.
      rewrite filter_all by done. by apply take_ge.
    - destruct (tag_free t) eqn:Hf; [done|]. by apply tag_free_has_tag in Hf. }
  split; [|split; [apply Hid|]].
  - unfold clean_and_truncate_prompt, clean_and_truncate_prompt_at.
    etrans; [apply sublist_take|].
    etrans; apply re_sub_delete_sublist.
  - destruct (sanitized text) as (H1 & H2 & H3). by apply Hid.
Qed.

(** The second part on a clean text. *)
Lemma clean_and_truncate_prompt_deletes_only_abc :
  clean_and_truncate_prompt text_abc = text_abc.
Proof.
  apply (proj1 (proj2 (clean_and_truncate_prompt_deletes_only text_abc))).
  - apply Nat.leb_le. vm_compute. reflexivity.
  - unfold text_abc, seven_bit. repeat constructor; by vm_compute.
  - intros H%has_tag_not_free. by vm_compute in H.
Defined.

(** ** [remove_emojis], the shared helper of lines 33-41 *)

(** The four ranges of the character class. *)
Definition is_emoji (c : N) : bool :=
  (((0x1F600 <=? c) && (c <=? 0x1F64F)) || ((0x1F300 <=? c) && (c <=? 0x1F5FF))
   || ((0x1F680 <=? c) && (c <=? 0x1F6FF)) || ((0x1F1E0 <=? c) && (c <=? 0x1F1FF)))%N.

(** [[...]+]: a longest non-empty run of characters of the class. *)
Definition pat_class (cls : N → bool) (_ : option N) (s : pystr) : option nat :=
  match span_while cls s with
  | O => None
  | S n => Some (S n)
  end.

(** [emoji_pattern.sub(r'', text)] *)
Definition remove_emojis (text : pystr) : pystr :=
  re_sub (pat_class is_emoji) (λ _, []) None 0 text.

Lemma class_removal_filter (cls : N → bool) (prev : option N) (k : nat) (s : pystr) :
  k ≤ span_while cls s →
  re_sub (pat_class cls) (λ _, []) prev k s = filter (λ c, cls c = false) s.
Proof.
  revert prev k. induction s as [|c s IH]; intros prev k Hk; [done|].
  cbn [re_sub]. unfold pat_class. simpl span_while in *.
  destruct (cls c) eqn:Hc.
  - rewrite filter_cons_False by congruence.
    destruct k as [|k]; simpl; apply IH; lia.
  - rewrite filter_cons_True by done.
    assert (k = 0) as -> by lia. f_equal. apply IH. lia.
Qed.

(** [remove_emojis] deletes exactly the characters of its four ranges and
    keeps all the others in their order; none of the ranges is left in the
    result, and a second pass changes nothing. *)
Theorem remove_emojis_filters (text : pystr) :
  remove_emojis text = filter (λ c, is_emoji c = false) text
  ∧ Forall (λ c, is_emoji c = false) (remove_emojis text)
  ∧ remove_emojis (remove_emojis text) = remove_emojis text.
Proof.
  unfold remove_emojis. rewrite !class_removal_filter by lia.
  split; [done|]. split.
  - apply Forall_forall. by intros c [Hc _]%list_elem_of_filter.
  - apply filter_all, Forall_forall. by intros c [Hc _]%list_elem_of_filter.
Qed.

(** ** Tagging keeps the risk text *)

(** The raw risk text is a subsequence of the tagged text: tagging only
    inserts markers and spaces, it loses and reorders nothing. *)
Theorem tag_severity_keeps_text (unicode_alnum : N → bool) (raw_risk : pystr) :
  raw_risk `sublist_of` tag_severity unicode_alnum raw_risk.
Proof.
  unfold tag_severity.
  pose proof (re_sub_severity_tagged unicode_alnum (length raw_risk) None raw_risk
                ltac:(done)) as H.
  induction H as [prev|prev token rest out _ _ _ IH|prev c rest out _ _ IH].
  - done.
  - do 2 apply sublist_cons. by apply sublist_app.
  - by apply sublist_skip.
Qed.

(** ** What a run costs and what reaches the model *)

(** A sanitized prompt. *)
Definition clean_prompt (p : pystr) : Prop :=
  length p ≤ MAX_CHARS ∧ Forall seven_bit p ∧ ¬ has_tag p.

(** [m] makes at most [n] calls of the model, all with sanitized prompts,
    and sleeps at most [t] seconds, whatever its outcome. *)
Definition spends {A} (n t : nat) (m : M A) : Prop :=
  ∀ w, ∃ l, calls (m w).2 = calls w ++ l ∧ Forall clean_prompt l
            ∧ length l ≤ n ∧ slept (m w).2 ≤ slept w + t.

Lemma spends_weaken {A} (n t n' t' : nat) (m : M A) :
  spends n t m → n ≤ n' → t ≤ t' → spends n' t' m.
Proof.
  intros Hm Hn Ht w. destruct (Hm w) as (l & H1 & H2 & H3 & H4).
  exists l. split_and!; [done|done|lia|lia].
Qed.

Lemma spends_nothing {A} (m : M A) :
  (∀ w, calls (m w).2 = calls w ∧ slept (m w).2 = slept w) → spends 0 0 m.
Proof.
  intros Hm w. destruct (Hm w) as [H1 H2]. exists [].
  rewrite app_nil_r. split_and!; [done|constructor|simpl; lia|lia].
Qed.

Lemma spends_bind {A B} (n1 t1 n2 t2 : nat) (m : M A) (f : A → M B) :
  spends n1 t1 m → (∀ x, spends n2 t2 (f x)) →
  spends (n1 + n2) (t1 + t2) (bind m f).
Proof.
  intros Hm Hf w. unfold bind. destruct (Hm w) as (l & H1 & H2 & H3 & H4).
  destruct (m w) as [[x|e] w1]; cbn [fst snd] in *.
  - destruct (Hf x w1) as (l' & H1' & H2' & H3' & H4'). exists (l ++ l').
    rewrite H1', H1, app_assoc, length_app.
    split_and!; [done|by apply Forall_app|lia|lia].
  - exists l. split_and!; [done|done|lia|lia].
Qed.

Lemma spends_try_except {A} (n1 t1 n2 t2 : nat) (m : M A) (h : pystr → M A) :
  spends n1 t1 m → (∀ e, spends n2 t2 (h e)) →
  spends (n1 + n2) (t1 + t2) (try_except m h).
Proof.
  intros Hm Hh w. unfold try_except. destruct (Hm w) as (l & H1 & H2 & H3 & H4).
  destruct (m w) as [[x|e] w1]; cbn [fst snd] in *.
  - exists l. split_and!; [done|done|lia|lia].
  - destruct (Hh e w1) as (l' & H1' & H2' & H3' & H4'). exists (l ++ l').
    rewrite H1', H1, app_assoc, length_app.
    split_and!; [done|by apply Forall_app|lia|lia].
Qed.

Lemma spends_when (n t : nat) (c : bool) (m : M unit) :
  spends n t m → spends n t (when c m).
Proof.
  destruct c; [done|]. intros _.
  eapply spends_weaken; [by apply spends_nothing|lia..].
Qed.

Lemma fallback_prompt_clean : clean_prompt fallback_prompt.
Proof.
  assert (fallback_prompt = clean_and_truncate_prompt fallback_prompt) as ->
    by (vm_compute; reflexivity).
  apply sanitized.
Qed.

Lemma spends_safe_generate model (p : pystr) : spends 4 6 (safe_generate model p).
Proof.
  intros w. destruct (safe_generate_outcome model p w)
    as (_ & k & Hk & _ & Hslept & [(Hlt & Hcalls & _)|(-> & Hcalls & _)]).
  - exists (replicate (S k) (clean_and_truncate_prompt p)).
    split; [done|]. split; [apply Forall_replicate, sanitized|].
    rewrite length_replicate. lia.
  - exists (replicate 3 (clean_and_truncate_prompt p) ++ [fallback_prompt]).
    split; [done|]. split.
    + apply Forall_app. split; [apply Forall_replicate, sanitized|].
      constructor; [apply fallback_prompt_clean|constructor].
    + rewrite length_app, length_replicate. simpl. lia.
Qed.

Ltac spends_step :=
  lazymatch goal with
  | |- ∀ _, _ => intros ?
  | |- spends _ _ (bind _ _) => eapply spends_bind
  | |- spends _ _ (try_except _ _) => eapply spends_try_except
  | |- spends _ _ (when _ _) => eapply spends_when
  | |- spends _ _ (safe_generate _ _) => apply spends_safe_generate
  | |- spends _ _ (cached _ _) => unfold cached
  | |- spends _ _ _ => by apply spends_nothing
  end.

(** A run of [feature_4] calls the model at most 16 times (four
    [safe_generate], four calls each) and sleeps at most 24 seconds, and
    every prompt it passes to the model went through the sanitizer: at most
    [MAX_CHARS] characters, all 7-bit, no tag. *)
Theorem feature_4_cost ua fs model (rq : request) (w : world) :
  ∃ l, calls (feature_4 ua fs model rq w).2 = calls w ++ l
       ∧ Forall clean_prompt l ∧ length l ≤ 16
       ∧ slept (feature_4 ua fs model rq w).2 ≤ slept w + 24.
Proof.
  assert (∃ n t, spends n t
            (when (nonempty (old_page_title rq) && nonempty (new_page_title rq))
               (try_except (analysis ua fs model rq)
                  (λ e, show (Error (py "Error: " ++ e)))))
            ∧ n ≤ 16 ∧ t ≤ 24) as (n & t & Hs & Hn & Ht).
  { eexists _, _. split.
    - unfold analysis, narratives, follow_up. repeat spends_step.
    - simpl. lia. }
  unfold feature_4.
  destruct (Hs (clear_screen w)) as (l & H1 & H2 & H3 & H4).
  exists l. unfold clear_screen in *. cbn [calls slept] in *.
  split_and!; [done|done|lia|lia].
Qed.

(** ** The session entries a run touches *)

(** [m] writes no session entry outside [keys] and removes none. *)
Definition footprint {A} (keys : list string) (m : M A) : Prop :=
  ∀ w key,
    (key ∉ keys → session_state (m w).2 !! key = session_state w !! key)
    ∧ (is_Some (session_state w !! key) → is_Some (session_state (m w).2 !! key)).

Lemma footprint_same {A} keys (m : M A) :
  (∀ w, session_state (m w).2 = session_state w) → footprint keys m.
Proof. intros Hm w key. by rewrite Hm. Qed.

Lemma footprint_bind {A B} keys (m : M A) (f : A → M B) :
  footprint keys m → (∀ x, footprint keys (f x)) → footprint keys (bind m f).
Proof.
  intros Hm Hf w key. unfold bind. destruct (Hm w key) as [H1 H2].
  destruct (m w) as [[x|e] w1]; cbn [fst snd] in *; [|done].
  destruct (Hf x w1 key) as [H1' H2']. split.
  - intros Hk. by rewrite H1', H1.
  - auto.
Qed.

Lemma footprint_try_except {A} keys (m : M A) (h : pystr → M A) :
  footprint keys m → (∀ e, footprint keys (h e)) → footprint keys (try_except m h).
Proof.
  intros Hm Hh w key. unfold try_except. destruct (Hm w key) as [H1 H2].
  destruct (m w) as [[x|e] w1]; cbn [fst snd] in *; [done|].
  destruct (Hh e w1 key) as [H1' H2']. split.
  - intros Hk. by rewrite H1', H1.
  - auto.
Qed.

Lemma footprint_when keys (c : bool) (m : M unit) :
  footprint keys m → footprint keys (when c m).
Proof. destruct c; [done|]. intros _. by apply footprint_same. Qed.

Lemma footprint_session_set keys (k : string) (v : pystr) :
  k ∈ keys → footprint keys (session_set k v).
Proof.
  intros Hk w key. cbn [session_set fst snd session_state]. split.
  - intros Hkey. apply lookup_insert_ne. by intros ->.
  - intros H. destruct (decide (k = key)) as [->|Hne].
    + by rewrite lookup_insert_eq.
    + by rewrite lookup_insert_ne.
Qed.

Lemma footprint_safe_generate keys model (p : pystr) :
  footprint keys (safe_generate model p).
Proof.
  apply footprint_same. intros w. by destruct (safe_generate_outcome model p w).
Qed.

Ltac footprint_step :=
  lazymatch goal with
  | |- ∀ _, _ => intros ?
  | |- footprint _ (bind _ _) => apply footprint_bind
  | |- footprint _ (try_except _ _) => apply footprint_try_except
  | |- footprint _ (when _ _) => apply footprint_when
  | |- footprint _ (safe_generate _ _) => apply footprint_safe_generate
  | |- footprint _ (session_set _ _) => apply footprint_session_set; set_solver
  | |- footprint _ (cached _ _) => unfold cached
  | |- footprint _ _ => by apply footprint_same
  end.

(** The five session entries of [feature_4]. *)
Definition feature_4_keys : list string :=
  ["impact_text"; "rec_text"; "risk_text"; "user_question"; "qa_answer"].

(** A run of [feature_4] assigns no session entry but its own five, so the
    entries of the other features survive it, and it never removes an
    entry.  (What Streamlit keeps for the two keyed select boxes of lines
    626-627 is set before the lines modelled here.) *)
Theorem feature_4_footprint ua fs model (rq : request) (w : world) (key : string) :
  (key ∉ feature_4_keys →
   session_state (feature_4 ua fs model rq w).2 !! key = session_state w !! key)
  ∧ (is_Some (session_state w !! key) →
     is_Some (session_state (feature_4 ua fs model rq w).2 !! key)).
Proof.
  assert (footprint feature_4_keys
            (when (nonempty (old_page_title rq) && nonempty (new_page_title rq))
               (try_except (analysis ua fs model rq)
                  (λ e, show (Error (py "Error: " ++ e)))))) as Hf.
  { unfold analysis, narratives, follow_up, feature_4_keys. repeat footprint_step. }
  unfold feature_4. apply (Hf (clear_screen w) key).
Qed.

(** ** Reruns, first runs and failed questions *)

Definition with_screen (w : world) (l : list widget) : world :=
  {| session_state := session_state w; calls := calls w; slept := slept w;
     screen := screen w ++ l |}.

Lemma follow_up_same fs model (m : ChangeMetrics) (q : pystr) (w : world)
    (asked ans : pystr) :
  session_state w !! "user_question" = Some asked →
  session_state w !! "qa_answer" = Some ans →
  q = asked ∨ q = [] →
  follow_up fs model m q w
  = (Returned tt, with_screen w (if nonempty ans then [Markdown ans] else [])).
Proof.
  intros Hq Ha Hsame. unfold follow_up.
  rewrite (bind_cached_present _ _ _ _ _ Hq), (bind_cached_present _ _ _ _ _ Ha).
  unfold bind, when, session_get, session_set, ret, show, with_screen.
  cbn [fst snd session_state]. rewrite Hq. cbn [from_option].
  replace (nonempty q && negb (bool_decide (q = id asked))) with false.
  - rewrite Ha. cbn [from_option]. unfold id.
    destruct (nonempty ans); [done|]. destruct w. simpl. by rewrite app_nil_r.
  - unfold id. destruct Hsame as [-> | ->]; [|done].
    by rewrite bool_decide_eq_true_2, andb_false_r.
Qed.

(** The world after the metrics and the three cached narratives are shown. *)
Definition shown_report (w : world) (m : ChangeMetrics) (i r k : pystr) : world :=
  {| session_state := session_state w; calls := calls w; slept := slept w;
     screen := [Dashboard m; Markdown i; Markdown r; Markdown k] |}.

Lemma analysis_cached ua fs model (rq : request) (w : world) (i r k : pystr) :
  nonempty (old_code rq) && nonempty (new_code rq) = true →
  screen w = [] →
  session_state w !! "impact_text" = Some i →
  session_state w !! "rec_text" = Some r →
  session_state w !! "risk_text" = Some k →
  analysis ua fs model rq w
  = follow_up fs model
      (change_metrics (old_page_title rq) (new_page_title rq)
         (old_code rq) (new_code rq))
      (user_question_input rq)
      (shown_report w
         (change_metrics (old_page_title rq) (new_page_title rq)
            (old_code rq) (new_code rq)) i r k).
Proof.
  intros Hc Hs Hi Hr Hk. unfold analysis. rewrite Hc. cbn [when].
  unfold bind at 1, show at 1. unfold bind at 1.
  erewrite narratives_present by done.
  unfold bind, session_get, show. cbn [fst snd session_state screen].
  rewrite Hi, Hr, Hk, Hs. reflexivity.
Qed.

(** A rerun is free: with the three narratives and an answered question in
    the session, a run with the same question (or none) calls the model not
    once, does not sleep, and leaves the session exactly as it was. *)
Theorem rerun_is_free ua fs model (rq : request) (w : world)
    (i r k asked ans : pystr) :
  session_state w !! "impact_text" = Some i →
  session_state w !! "rec_text" = Some r →
  session_state w !! "risk_text" = Some k →
  session_state w !! "user_question" = Some asked →
  session_state w !! "qa_answer" = Some ans →
  user_question_input rq = asked ∨ user_question_input rq = [] →
  calls (feature_4 ua fs model rq w).2 = calls w
  ∧ slept (feature_4 ua fs model rq w).2 = slept w
  ∧ session_state (feature_4 ua fs model rq w).2 = session_state w.
Proof.
  intros Hi Hr Hk Hq Ha Hsame. unfold feature_4, when.
  destruct (nonempty (old_page_title rq) && nonempty (new_page_title rq)); [|done].
  unfold try_except.
  destruct (nonempty (old_code rq) && nonempty (new_code rq)) eqn:Hc.
  - erewrite analysis_cached by done.
    erewrite follow_up_same by done. done.
  - unfold analysis. rewrite Hc. done.
Qed.

(** [rerun_is_free] in the session where "why" was asked. *)
Lemma rerun_is_free_after_why :
  calls (feature_4 ascii_alnum blank_float_str echo_model
           (request_of text_abc text_axcd (py "why")) answered_session).2
  = calls answered_session
  ∧ slept (feature_4 ascii_alnum blank_float_str echo_model
             (request_of text_abc text_axcd (py "why")) answered_session).2
    = slept answered_session
  ∧ session_state (feature_4 ascii_alnum blank_float_str echo_model
                     (request_of text_abc text_axcd (py "why")) answered_session).2
    = session_state answered_session.
Proof.
  apply (rerun_is_free ascii_alnum blank_float_str echo_model
           (request_of text_abc text_axcd (py "why")) answered_session
           (default [] (session_state answered_session !! "impact_text"))
           (default [] (session_state answered_session !! "rec_text"))
           (default [] (session_state answered_session !! "risk_text"))
           (py "why")
           (default [] (session_state answered_session !! "qa_answer")));
    first [ by left | vm_compute; reflexivity ].
Defined.

(** A question whose generation raises is swallowed: the question is
    recorded although the cached answer is still the one of the question
    before, so asking it again calls the model not once and shows that
    earlier answer. *)
Theorem failed_question_is_swallowed fs model (m : ChangeMetrics) (q : pystr)
    (w : world) (asked ans e : pystr) :
  session_state w !! "user_question" = Some asked →
  session_state w !! "qa_answer" = Some ans →
  (follow_up fs model m q w).1 = Raised e →
  session_state (follow_up fs model m q w).2 !! "user_question" = Some q
  ∧ session_state (follow_up fs model m q w).2 !! "qa_answer" = Some ans
  ∧ follow_up fs model m q (follow_up fs model m q w).2
    = (Returned tt,
       with_screen (follow_up fs model m q w).2
         (if nonempty ans then [Markdown ans] else [])).
Proof.
  intros Hq Ha Hraised.
  assert (session_state (follow_up fs model m q w).2 !! "user_question" = Some q
          ∧ session_state (follow_up fs model m q w).2 !! "qa_answer" = Some ans)
    as [Hq' Ha'].
  { revert Hraised. unfold follow_up.
    rewrite (bind_cached_present _ _ _ _ _ Hq), (bind_cached_present _ _ _ _ _ Ha).
    unfold bind, when, session_get, session_set, ret, show.
    cbn [fst snd session_state]. rewrite Hq. cbn [from_option].
    destruct (nonempty q && _).
    - cbn beta.
      match goal with |- context [safe_generate model ?p ?w1] =>
        pose proof (safe_generate_outcome model p w1) as (Hss & _);
        destruct (safe_generate model p w1) as [[a|e'] w2] end;
        cbn [fst snd session_state] in *.
      + by destruct (nonempty _).
      + intros _. rewrite Hss. cbn [session_state].
        rewrite lookup_insert_eq, lookup_insert_ne by done. done.
    - cbn [fst snd]. by destruct (nonempty _). }
  split; [done|]. split; [done|].
  apply (follow_up_same fs model m q _ q ans); [done|done|by left].
Qed.

(** [failed_question_is_swallowed] with the model down, asking "how" after
    "why". *)
Lemma failed_question_is_swallowed_when_down :
  session_state
    (follow_up blank_float_str down_model
       (change_metrics (py "old") (py "new") text_abc text_axcd)
       (py "how") answered_session).2 !! "user_question" = Some (py "how")
  ∧ session_state
      (follow_up blank_float_str down_model
         (change_metrics (py "old") (py "new") text_abc text_axcd)
         (py "how") answered_session).2 !! "qa_answer"
    = Some (default [] (session_state answered_session !! "qa_answer")).
Proof.
  pose proof (failed_question_is_swallowed blank_float_str down_model
    (change_metrics (py "old") (py "new") text_abc text_axcd)
    (py "how") answered_session (py "why")
    (default [] (session_state answered_session !! "qa_answer"))
    (py "unavailable")) as H.
  destruct H as (H1 & H2 & _);
    first [ vm_compute; reflexivity | by split ].
Defined.

Definition with_call (w : world) (p : pystr) : world :=
  {| session_state := session_state w; calls := calls w ++ [p];
     slept := slept w; screen := screen w |}.

Definition with_entry (w : world) (key : string) (v : pystr) : world :=
  {| session_state := <[key := v]> (session_state w); calls := calls w;
     slept := slept w; screen := screen w |}.

Lemma safe_generate_first model (p : pystr) (w : world) (t : pystr) :
  model (length (calls w)) (clean_and_truncate_prompt p) = Returned t →
  safe_generate model p w = (Returned t, with_call w (clean_and_truncate_prompt p)).
Proof.
  intros Hm. unfold safe_generate, safe_generate_with. cbn [attempts].
  unfold bind, try_except, generate_content, ret. by rewrite Hm.
Qed.

Lemma cached_absent (key : string) (value : M pystr) (w : world) :
  session_state w !! key = None →
  cached key value w = bind value (session_set key) w.
Proof.
  intros Hk. unfold cached, bind at 1, session_has. cbn [fst snd].
  rewrite bool_decide_eq_false_2 by (rewrite Hk; by intros [? ?]). done.
Qed.

Lemma narratives_first ua model (d : pystr) (w : world) (t1 t2 t3 : pystr) :
  session_state w !! "impact_text" = None →
  session_state w !! "rec_text" = None →
  session_state w !! "risk_text" = None →
  model (length (calls w)) (clean_and_truncate_prompt (impact_prompt d))
  = Returned t1 →
  model (length (calls w) + 1) (clean_and_truncate_prompt (rec_prompt d))
  = Returned t2 →
  model (length (calls w) + 2) (clean_and_truncate_prompt (risk_prompt d))
  = Returned t3 →
  narratives ua model d w
  = (Returned tt,
     with_entry
       (with_call
          (with_entry
             (with_call
                (with_entry
                   (with_call w (clean_and_truncate_prompt (impact_prompt d)))
                   "impact_text" t1)
                (clean_and_truncate_prompt (rec_prompt d)))
             "rec_text" t2)
          (clean_and_truncate_prompt (risk_prompt d)))
       "risk_text" (tag_severity ua t3)).
Proof.
  intros Hi Hr Hk H1 H2 H3. unfold narratives.
  unfold bind at 1. rewrite (cached_absent _ _ _ Hi).
  unfold bind at 1. rewrite (safe_generate_first _ _ _ _ H1).
  cbn [session_set fst snd].
  unfold bind at 1. rewrite cached_absent
    by (cbn [session_state with_call]; by rewrite lookup_insert_ne).
  unfold bind at 1. erewrite safe_generate_first; cycle 1.
  { cbn [calls with_call]. rewrite length_app. exact H2. }
  cbn [session_set fst snd].
  rewrite cached_absent
    by (cbn [session_state with_call]; by rewrite !lookup_insert_ne).
  unfold bind at 1 2. erewrite safe_generate_first; cycle 1.
  { cbn [calls with_call]. rewrite !length_app. cbn [length].
    by replace (length (calls w) + 1 + 1) with (length (calls w) + 2) by lia. }
  reflexivity.
Qed.

(** The first run on a pair of non-empty texts, with no narrative in the
    session, no question asked and a model that answers: the model is
    called exactly three times, with the sanitized impact, recommendation
    and risk prompts over the sanitized diff, in that order, and the three
    answers are stored, the risk one tagged. *)
Theorem first_run_three_calls ua fs model (rq : request) (w : world)
    (t1 t2 t3 : pystr) :
  nonempty (old_page_title rq) && nonempty (new_page_title rq) = true →
  nonempty (old_code rq) && nonempty (new_code rq) = true →
  user_question_input rq = [] →
  session_state w !! "impact_text" = None →
  session_state w !! "rec_text" = None →
  session_state w !! "risk_text" = None →
  let d := clean_and_truncate_prompt
             (full_diff_text (old_page_title rq) (new_page_title rq)
                (old_code rq) (new_code rq)) in
  model (length (calls w)) (clean_and_truncate_prompt (impact_prompt d))
  = Returned t1 →
  model (length (calls w) + 1) (clean_and_truncate_prompt (rec_prompt d))
  = Returned t2 →
  model (length (calls w) + 2) (clean_and_truncate_prompt (risk_prompt d))
  = Returned t3 →
  calls (feature_4 ua fs model rq w).2
  = calls w ++ [clean_and_truncate_prompt (impact_prompt d);
                clean_and_truncate_prompt (rec_prompt d);
                clean_and_truncate_prompt (risk_prompt d)]
  ∧ session_state (feature_4 ua fs model rq w).2 !! "impact_text" = Some t1
  ∧ session_state (feature_4 ua fs model rq w).2 !! "rec_text" = Some t2
  ∧ session_state (feature_4 ua fs model rq w).2 !! "risk_text"
    = Some (tag_severity ua t3).
Proof.
  intros Ht Hc Hq Hi Hr Hk d H1 H2 H3.
  remember (feature_4 ua fs model rq w) as r eqn:Er.
  unfold feature_4 in Er. rewrite Ht in Er. cbn [when] in Er.
  unfold try_except, analysis in Er. rewrite Hc, Hq in Er. cbn [when] in Er.
  unfold bind at 1, show at 1 in Er. unfold bind at 1 in Er. fold d in Er.
  erewrite (narratives_first ua model d _ t1 t2 t3) in Er by done.
  set (m := change_metrics _ _ _ _) in Er.
  set (w3 := with_entry _ "risk_text" _) in Er.
  set (rest := bind _ _) in Er.
  assert (spends 0 0 rest) as Hspend.
  { subst rest. unfold follow_up. cbn [nonempty andb when].
    eapply spends_weaken; [repeat spends_step|simpl; lia..]. }
  assert (∀ key, key ≠ "user_question" → key ≠ "qa_answer" → keeps key rest)
    as Hkeeps.
  { intros key Hk1 Hk2. subst rest.
    repeat first [ by apply keeps_follow_up | keeps_step ]. }
  destruct (Hspend w3) as (l & Hl & _ & Hlen & _).
  pose proof (Hkeeps "impact_text" ltac:(done) ltac:(done) w3) as Ki.
  pose proof (Hkeeps "rec_text" ltac:(done) ltac:(done) w3) as Kr.
  pose proof (Hkeeps "risk_text" ltac:(done) ltac:(done) w3) as Kk.
  destruct l; [|simpl in Hlen; lia]. rewrite app_nil_r in Hl.
  assert (calls w3 = calls w ++ [clean_and_truncate_prompt (impact_prompt d);
                                 clean_and_truncate_prompt (rec_prompt d);
                                 clean_and_truncate_prompt (risk_prompt d)]) as Hw3
    by (subst w3; cbn [calls with_entry with_call clear_screen];
        by rewrite <- !app_assoc).
  assert (session_state w3 !! "impact_text" = Some t1
          ∧ session_state w3 !! "rec_text" = Some t2
          ∧ session_state w3 !! "risk_text" = Some (tag_severity ua t3))
    as (Si & Sr & Sk).
  { subst w3. cbn [session_state with_entry with_call].
    rewrite lookup_insert_eq. rewrite !lookup_insert_ne by done.
    rewrite lookup_insert_eq. rewrite lookup_insert_ne by done.
    by rewrite lookup_insert_eq. }
  destruct (rest w3) as [[[]|e] w4]; subst r;
    cbn [fst snd show session_state calls] in *;
    by rewrite Hl, Ki, Kr, Kk.
Qed.

(** [first_run_three_calls] on the texts a, b, c and a, x, c, d with the
    model that echoes its prompt. *)
Lemma first_run_three_calls_echo :
  length (calls (feature_4 ascii_alnum blank_float_str echo_model
                   (request_of text_abc text_axcd []) fresh).2) = 3.
Proof.
  pose proof (first_run_three_calls ascii_alnum blank_float_str echo_model
                (request_of text_abc text_axcd []) fresh) as H.
  cbn zeta in H.
  edestruct H as (Hcalls & _); [reflexivity..|].
  by rewrite Hcalls.
Defined.

(** ** [flatten_dict], the CSV helper of [feature_3] (lines 402-410) *)

Section FlattenDict.
(** What is not a dict. *)
Context {L : Type}.

(** A decoded JSON value, as far as [flatten_dict] looks at it: a dict, or
    anything else (a list of dicts included).  A dict is the list of its
    items in insertion order; its keys are [str]. *)
#[local] Unset Elimination Schemes.
Inductive value : Type :=
| Leaf (x : L)
| Dict (d : list (pystr * value)).
#[local] Set Elimination Schemes.

(** [d[k] = v]: a key that is present keeps its place. *)
Fixpoint dict_set {V} (d : list (pystr * V)) (k : pystr) (v : V) : list (pystr * V) :=
  match d with
  | [] => [(k, v)]
  | (k', v') :: rest =>
      if decide (k' = k) then (k', v) :: rest else (k', v') :: dict_set rest k v
  end.

(** [dict(items)] *)
Definition dict_of_items {V} (items : list (pystr * V)) : list (pystr * V) :=
  foldl (λ d kv, dict_set d kv.1 kv.2) [] items.

(** [f"{parent_key}{sep}{k}" if parent_key else k] *)
Definition new_key (parent_key sep k : pystr) : pystr :=
  if nonempty parent_key then parent_key ++ sep ++ k else k.

(** What one turn of the loop adds to [items] for a value [v] under
    [new_key]: the items of [flatten_dict(v, new_key, sep=sep)] for a dict,
    the pair itself otherwise.  The recursion limit of the interpreter is
    not modelled. *)
Fixpoint entry_items (v : value) (key sep : pystr) : list (pystr * value) :=
  match v with
  | Dict d =>
      dict_of_items
        (flat_map (λ kv, entry_items kv.2 (new_key key sep kv.1) sep) d)
  | Leaf _ => [(key, v)]
  end.

(** [flatten_dict(d, parent_key, sep)] *)
Definition flatten_dict (d : list (pystr * value)) (parent_key sep : pystr) :=
  dict_of_items
    (flat_map (λ kv, entry_items kv.2 (new_key parent_key sep kv.1) sep) d).

(** The values of the tree that are not dicts, in order, each with the
    keys that lead to it. *)
Fixpoint leaves (v : value) : list (list pystr * L) :=
  match v with
  | Leaf x => [([], x)]
  | Dict d => flat_map (λ kv, (λ pl, (kv.1 :: pl.1, pl.2)) <$> leaves kv.2) d
  end.

(** At every level the keys are distinct, non-empty and free of the
    character [c]. *)
Fixpoint well_keyed (c : N) (v : value) : bool :=
  match v with
  | Leaf _ => true
  | Dict d =>
      bool_decide (NoDup d.*1)
      && forallb (λ kv, nonempty kv.1 && bool_decide (c ∉ kv.1) && well_keyed c kv.2) d
  end.

(** Induction on a value, with the hypothesis for every value of a dict. *)
Lemma value_ind' (P : value → Prop) :
  (∀ x, P (Leaf x)) →
  (∀ d, Forall (λ kv, P kv.2) d → P (Dict d)) →
  ∀ v, P v.
Proof.
  intros Hleaf Hdict. fix IH 1. intros [x|d]; [apply Hleaf|].
  apply Hdict. induction d as [|[k v] d IHd]; constructor; [apply IH|apply IHd].
Qed.

Lemma dict_set_fresh {V} (d : list (pystr * V)) (k : pystr) (v : V) :
  k ∉ d.*1 → dict_set d k v = d ++ [(k, v)].
Proof.
  induction d as [|[k' v'] d IH]; [done|]. cbn.
  intros [Hne Hk]%not_elem_of_cons.
  rewrite decide_False by done. f_equal. by apply IH.
Qed.

Lemma dict_set_keys {V} (d : list (pystr * V)) (k : pystr) (v : V) :
  (dict_set d k v).*1 = if decide (k ∈ d.*1) then d.*1 else d.*1 ++ [k].
Proof.
  induction d as [|[k' v'] d IH]; [done|]. cbn.
  destruct (decide (k' = k)) as [->|Hne].
  - by rewrite decide_True by apply list_elem_of_here.
  - cbn. rewrite IH. destruct (decide (k ∈ d.*1)).
    + by rewrite decide_True by by apply list_elem_of_further.
    + rewrite decide_False; [done|]. by intros [?|?]%elem_of_cons.
Qed.

Lemma dict_set_NoDup {V} (d : list (pystr * V)) (k : pystr) (v : V) :
  NoDup d.*1 → NoDup (dict_set d k v).*1.
Proof.
  intros Hd. rewrite dict_set_keys. destruct (decide _); [done|].
  apply NoDup_app. split_and!; [done| |apply NoDup_singleton].
  by intros k' Hk' ->%list_elem_of_singleton.
Qed.

Lemma elem_of_dict_set {V} (d : list (pystr * V)) (k : pystr) (v : V) kv :
  kv ∈ dict_set d k v → kv ∈ d ∨ kv = (k, v).
Proof.
  induction d as [|[k' v'] d IH]; cbn.
  - intros Heq%list_elem_of_singleton. by right.
  - destruct (decide (k' = k)) as [->|Hne].
    + intros [Heq|?]%elem_of_cons; [by right|left; by apply list_elem_of_further].
    + intros [Heq|[?|?]%IH]%elem_of_cons; [left|left|by right].
      * rewrite Heq. apply list_elem_of_here.
      * by apply list_elem_of_further.
Qed.

Lemma length_dict_set {V} (d : list (pystr * V)) (k : pystr) (v : V) :
  length (dict_set d k v) ≤ S (length d).
Proof.
  induction d as [|[k' v'] d IH]; cbn; [done|].
  destruct (decide _); cbn; lia.
Qed.

Lemma dict_of_items_from {V} (acc items : list (pystr * V)) :
  NoDup acc.*1 →
  let d := foldl (λ d kv, dict_set d kv.1 kv.2) acc items in
  NoDup d.*1 ∧ (∀ kv, kv ∈ d → kv ∈ acc ∨ kv ∈ items)
  ∧ length d ≤ length acc + length items
  ∧ (NoDup (acc ++ items).*1 → d = acc ++ items).
Proof.
  revert acc. induction items as [|[k v] items IH]; intros acc Hacc; cbn.
  - rewrite app_nil_r. split_and!; [done|auto|lia|done].
  - destruct (IH (dict_set acc k v)) as (H1 & H2 & H3 & H4);
      [by apply dict_set_NoDup|]. cbn in *.
    split_and!; [done| | |].
    + intros kv [Hkv|Hkv]%H2; [|right; by apply list_elem_of_further].
      apply elem_of_dict_set in Hkv as [?|Heq]; [by left|right].
      rewrite Heq. apply list_elem_of_here.
    + pose proof (length_dict_set acc k v). lia.
    + intros Hnd. assert (k ∉ acc.*1) as Hk.
      { rewrite fmap_app in Hnd. apply NoDup_app in Hnd as (_ & Hd & _).
        intros Hin. apply (Hd _ Hin). apply list_elem_of_here. }
      rewrite dict_set_fresh in H4 by done. rewrite dict_set_fresh by done.
      rewrite <- app_assoc in H4. by apply H4.
Qed.

Lemma dict_of_items_NoDup {V} (items : list (pystr * V)) :
  NoDup (dict_of_items items).*1.
Proof. apply (dict_of_items_from [] items). constructor. Qed.

Lemma elem_of_dict_of_items {V} (items : list (pystr * V)) kv :
  kv ∈ dict_of_items items → kv ∈ items.
Proof.
  intros Hkv. destruct (dict_of_items_from [] items) as (_ & H & _); [constructor|].
  by destruct (H kv Hkv) as [?%elem_of_nil|?].
Qed.

Lemma length_dict_of_items {V} (items : list (pystr * V)) :
  length (dict_of_items items) ≤ length items.
Proof. apply (dict_of_items_from [] items). constructor. Qed.

Lemma dict_of_items_id {V} (items : list (pystr * V)) :
  NoDup items.*1 → dict_of_items items = items.
Proof. apply (dict_of_items_from [] items). constructor. Qed.

Lemma entry_items_dict (d : list (pystr * value)) (key sep : pystr) :
  entry_items (Dict d) key sep = flatten_dict d key sep.
Proof. reflexivity. Qed.

Lemma elem_of_flat_map {A B} (f : A → list B) (l : list A) (y : B) :
  y ∈ flat_map f l ↔ ∃ x, x ∈ l ∧ y ∈ f x.
Proof.
  induction l as [|x l IH]; cbn.
  - split; [by intros ?%elem_of_nil|by intros (? & ?%elem_of_nil & _)].
  - rewrite elem_of_app, IH. split.
    + intros [?|(x' & ? & ?)]; [exists x|exists x'].
      * split; [apply list_elem_of_here|done].
      * split; [by apply list_elem_of_further|done].
    + intros (x' & [->|?]%elem_of_cons & ?); [by left|right; by exists x'].
Qed.

Lemma entry_items_leaves (v : value) (key sep : pystr) :
  Forall (λ kv, ∃ path x, kv.2 = Leaf x ∧ (path, x) ∈ leaves v)
    (entry_items v key sep)
  ∧ length (entry_items v key sep) ≤ length (leaves v).
Proof.
  revert key. induction v as [x|d IH] using value_ind'; intros key.
  - cbn. split; [|done]. repeat constructor. exists [], x.
    split; [done|apply list_elem_of_here].
  - cbn [entry_items leaves]. split.
    + apply Forall_forall. intros kv Hkv%elem_of_dict_of_items.
      apply elem_of_flat_map in Hkv as ([k v] & Hin & Hkv).
      rewrite Forall_forall in IH.
      destruct (IH _ Hin (new_key key sep k)) as [Hall _].
      rewrite Forall_forall in Hall.
      destruct (Hall _ Hkv) as (path & x & Hx & Hpath).
      exists (k :: path), x. split; [done|].
      apply elem_of_flat_map. exists (k, v). split; [done|].
      apply list_elem_of_fmap. by exists (path, x).
    + etrans; [apply length_dict_of_items|].
      induction IH as [|[k v] d Hv _ IHd]; [done|].
      cbn [flat_map]. rewrite !length_app, length_fmap.
      destruct (Hv (new_key key sep k)) as [_ Hlen]. cbn [fst snd] in *. lia.
Qed.

(** The result of [flatten_dict] is flat: its keys are distinct, each of
    its values is a non-dict value found at some path of the input, and it
    has no more entries than the input has such values. *)
Theorem flatten_dict_flat (d : list (pystr * value)) (parent_key sep : pystr) :
  NoDup (flatten_dict d parent_key sep).*1
  ∧ Forall (λ kv, ∃ path x, kv.2 = Leaf x ∧ (path, x) ∈ leaves (Dict d))
      (flatten_dict d parent_key sep)
  ∧ length (flatten_dict d parent_key sep) ≤ length (leaves (Dict d)).
Proof.
  split; [apply dict_of_items_NoDup|].
  rewrite <- entry_items_dict. apply entry_items_leaves.
Qed.

(** [sep] before every key of a path. *)
Definition path_tail (sep : pystr) (path : list pystr) : pystr :=
  flat_map (λ k, sep ++ k) path.

Lemma join_cons (sep k : pystr) (path : list pystr) :
  join sep (k :: path) = k ++ path_tail sep path.
Proof.
  revert k. induction path as [|k' path IH]; intros k.
  - cbn. by rewrite app_nil_r.
  - change (k ++ sep ++ join sep (k' :: path) = k ++ path_tail sep (k' :: path)).
    rewrite IH. cbn. by rewrite <- app_assoc.
Qed.

Lemma key_split (c : N) (k1 k2 r1 r2 : pystr) :
  c ∉ k1 → c ∉ k2 →
  (r1 = [] ∨ head r1 = Some c) → (r2 = [] ∨ head r2 = Some c) →
  k1 ++ r1 = k2 ++ r2 → k1 = k2 ∧ r1 = r2.
Proof.
  revert k2. induction k1 as [|x k1 IH]; intros [|y k2] H1 H2 Hr1 Hr2; cbn.
  - done.
  - intros ->. destruct Hr1 as [?|[= ->]]; [done|].
    destruct H2. apply list_elem_of_here.
  - intros <-. destruct Hr2 as [?|[= ->]]; [done|].
    destruct H1. apply list_elem_of_here.
  - intros [= -> Heq].
    apply not_elem_of_cons in H1 as [_ H1], H2 as [_ H2].
    by destruct (IH k2 H1 H2 Hr1 Hr2 Heq) as [-> ->].
Qed.

Lemma path_tail_head (c : N) (s : pystr) (path : list pystr) :
  path_tail (c :: s) path = [] ∨ head (path_tail (c :: s) path) = Some c.
Proof. destruct path; [by left|by right]. Qed.

Lemma path_tail_inj (c : N) (s : pystr) (p1 p2 : list pystr) :
  Forall (λ k, c ∉ k) p1 → Forall (λ k, c ∉ k) p2 →
  path_tail (c :: s) p1 = path_tail (c :: s) p2 → p1 = p2.
Proof.
  intros H1. revert p2. induction H1 as [|k1 p1 Hk1 _ IH]; intros p2 H2.
  - by destruct H2.
  - destruct H2 as [|k2 p2 Hk2 H2]; [done|]. cbn.
    intros [= Heq]. rewrite <- !app_assoc in Heq. apply app_inv_head in Heq.
    apply (key_split c) in Heq as [-> Heq];
      [|done|done|apply (path_tail_head c s)..].
    f_equal. by apply IH.
Qed.

Lemma well_keyed_dict (c : N) (d : list (pystr * value)) :
  well_keyed c (Dict d) = true →
  NoDup d.*1
  ∧ Forall (λ kv, kv.1 ≠ [] ∧ (c ∉ kv.1) ∧ well_keyed c kv.2 = true) d.
Proof.
  cbn [well_keyed]. intros [Hnd Hall]%andb_prop.
  split; [by apply bool_decide_eq_true in Hnd|]. clear Hnd.
  induction d as [|[k v] d IH]; [done|]. cbn [forallb fst snd] in Hall.
  apply andb_prop in Hall as [[[Hk Hc]%andb_prop Hv]%andb_prop Hall].
  constructor; [|by apply IH]. cbn [fst snd].
  split_and!; [by destruct k|by apply bool_decide_eq_true in Hc|done].
Qed.

Lemma fmap_flat_map {A B C} (f : B → C) (g : A → list B) (l : list A) :
  f <$> flat_map g l = flat_map (λ x, f <$> g x) l.
Proof. induction l as [|x l IH]; [done|]. cbn. by rewrite fmap_app, IH. Qed.

Lemma flat_map_ext_Forall {A B} (f g : A → list B) (l : list A) :
  Forall (λ x, f x = g x) l → flat_map f l = flat_map g l.
Proof. induction 1 as [|x l Hx _ IH]; [done|]. cbn. by rewrite Hx, IH. Qed.

Lemma under_key_paths (k : pystr) (l : list (list pystr * L)) :
  ((λ pl, (k :: pl.1, pl.2)) <$> l).*1 = (k ::.) <$> l.*1.
Proof. induction l as [|pl l IH]; [done|]. cbn. by rewrite <- IH. Qed.

(** The paths of the values of a well-keyed tree are distinct, and none of
    their keys holds the separator's first character. *)
Lemma leaves_paths (c : N) (v : value) :
  well_keyed c v = true →
  NoDup (leaves v).*1 ∧ Forall (λ pl, Forall (λ k, c ∉ k) pl.1) (leaves v).
Proof.
  induction v as [x|d IH] using value_ind'; intros Hwk.
  - cbn. split; [apply NoDup_singleton|by repeat constructor].
  - apply well_keyed_dict in Hwk as [Hnd Hall]. cbn [leaves].
    induction d as [|[k v] d IHd]; [cbn; split; constructor|].
    apply Forall_cons in IH as [Hv IH], Hall as [(Hk & Hc & Hwk) Hall].
    cbn [fmap list_fmap fst] in Hnd. apply NoDup_cons in Hnd as [Hfresh Hnd].
    destruct (IHd IH Hnd Hall) as [IH1 IH2], (Hv Hwk) as [Hv1 Hv2].
    cbn [flat_map fst snd] in *. split.
    + rewrite fmap_app. apply NoDup_app. split_and!; [| |done].
      * rewrite under_key_paths. apply NoDup_fmap_2; [|done]. by intros ?? [=].
      * intros path [[p x] [-> Hin]]%list_elem_of_fmap Hrest.
        apply list_elem_of_fmap in Hin as ([p' x'] & [= -> ->] & _).
        apply list_elem_of_fmap in Hrest as ([p2 x2] & Heq & Hrest).
        apply elem_of_flat_map in Hrest as ([k2 v2] & Hin2 & Hrest).
        apply list_elem_of_fmap in Hrest as ([p3 x3] & [= -> ->] & _).
        cbn in Heq. injection Heq as -> ->. apply Hfresh.
        apply list_elem_of_fmap. by exists (k2, v2).
    + apply Forall_app. split; [|done]. apply Forall_fmap.
      eapply Forall_impl; [exact Hv2|]. intros [p x] Hp. by constructor.
Qed.

Lemma keys_of_paths (g : list pystr → pystr) (l : list (list pystr * L)) :
  ((λ pl, (g pl.1, Leaf pl.2)) <$> l).*1 = g <$> l.*1.
Proof. induction l as [|pl l IH]; [done|]. cbn. by rewrite <- IH. Qed.

Lemma entry_items_paths (c : N) (s : pystr) (v : value) :
  well_keyed c v = true → ∀ key, key ≠ [] →
  entry_items v key (c :: s)
  = (λ pl, (key ++ path_tail (c :: s) pl.1, Leaf pl.2)) <$> leaves v.
Proof.
  induction v as [x|d IH] using value_ind'; intros Hwk key Hkey.
  - cbn. by rewrite app_nil_r.
  - pose proof (leaves_paths c _ Hwk) as [Hnd Hfree].
    cbn [entry_items].
    assert (flat_map (λ kv, entry_items kv.2 (new_key key (c :: s) kv.1) (c :: s)) d
            = (λ pl, (key ++ path_tail (c :: s) pl.1, Leaf pl.2)) <$> leaves (Dict d))
      as ->.
    { cbn [leaves]. rewrite fmap_flat_map. apply flat_map_ext_Forall.
      apply well_keyed_dict in Hwk as [_ Hall].
      rewrite Forall_forall in *. intros [k v] Hin.
      destruct (Hall _ Hin) as (Hk & Hc & Hwk). cbn [fst snd] in *.
      unfold new_key. destruct key as [|n key]; [done|]. cbn [nonempty].
      rewrite (IH _ Hin Hwk) by done.
      rewrite <- list_fmap_compose. apply Forall_fmap_ext_1, Forall_forall.
      intros [p x] _. unfold compose, path_tail. cbn [fst snd flat_map].
      by rewrite <- !app_assoc. }
    apply dict_of_items_id.
    rewrite (keys_of_paths (λ p, key ++ path_tail (c :: s) p)).
    apply NoDup_fmap_2_strong; [|done].
    intros p1 p2 [[? x1] [-> H1]]%list_elem_of_fmap
      [[? x2] [-> H2]]%list_elem_of_fmap Heq%app_inv_head.
    rewrite Forall_forall in Hfree.
    by apply (path_tail_inj c s); [apply (Hfree _ H1)|apply (Hfree _ H2)|].
Qed.

(** For a dict whose keys, at every level, are distinct, non-empty and
    free of the separator's first character, [flatten_dict] loses nothing:
    its entries are the non-dict values of the tree, in their order, each
    under its path joined with the separator (after the parent key, when
    there is one). *)
Theorem flatten_dict_paths (d : list (pystr * value)) (parent_key : pystr)
    (c : N) (s : pystr) :
  well_keyed c (Dict d) = true →
  flatten_dict d parent_key (c :: s)
  = (λ pl, (join (c :: s)
              (if nonempty parent_key then parent_key :: pl.1 else pl.1),
            Leaf pl.2)) <$> leaves (Dict d).
Proof.
  intros Hwk. destruct parent_key as [|n p]; cbn [nonempty].
  - pose proof (leaves_paths c _ Hwk) as [Hnd Hfree].
    unfold flatten_dict.
    assert (flat_map (λ kv, entry_items kv.2 (new_key [] (c :: s) kv.1) (c :: s)) d
            = (λ pl, (join (c :: s) pl.1, Leaf pl.2)) <$> leaves (Dict d)) as ->.
    { cbn [leaves]. rewrite fmap_flat_map. apply flat_map_ext_Forall.
      apply well_keyed_dict in Hwk as [_ Hall].
      eapply Forall_impl; [exact Hall|]. intros [k v] (Hk & Hc & Hwk).
      cbn [fst snd new_key nonempty] in *.
      rewrite (entry_items_paths c s v Hwk k Hk).
      rewrite <- list_fmap_compose. apply Forall_fmap_ext_1, Forall_forall.
      intros [path x] _. cbn [compose fst snd]. by rewrite join_cons. }
    apply dict_of_items_id. rewrite (keys_of_paths (join (c :: s))).
    apply NoDup_fmap_2_strong; [|done].
    rewrite Forall_forall in Hfree.
    assert (∀ pl, pl ∈ leaves (Dict d) → ∃ k p, pl.1 = k :: p) as Hcons.
    { intros pl ([k v] & _ & Hpl)%elem_of_flat_map.
      apply list_elem_of_fmap in Hpl as ([p x] & -> & _). by exists k, p. }
    intros p1 p2 [[? x1] [-> H1]]%list_elem_of_fmap
      [[? x2] [-> H2]]%list_elem_of_fmap.
    destruct (Hcons _ H1) as (k1 & q1 & E1), (Hcons _ H2) as (k2 & q2 & E2).
    pose proof (Hfree _ H1) as F1. pose proof (Hfree _ H2) as F2.
    cbn [fst] in *. subst. rewrite !join_cons.
    apply Forall_cons in F1 as [Hk1 F1], F2 as [Hk2 F2].
    intros [-> Heq]%(key_split c); [|done|done|apply (path_tail_head c s)..].
    f_equal. by apply (path_tail_inj c s).
  - rewrite <- entry_items_dict, entry_items_paths by done.
    apply Forall_fmap_ext_1, Forall_forall.
    intros [path x] _. cbn [fst snd]. by rewrite join_cons.
Qed.
Lemma flatten_dict_of_flat (d : list (pystr * value)) (sep : pystr) :
  NoDup d.*1 → Forall (λ kv, ∃ x, kv.2 = Leaf x) d →
  flatten_dict d [] sep = d.
Proof.
  intros Hnd Hflat. unfold flatten_dict.
  assert (flat_map (λ kv, entry_items kv.2 (new_key [] sep kv.1) sep) d = d) as ->.
  { clear Hnd. induction Hflat as [|[k v] d [x Hx] _ IH]; [done|].
    cbn [flat_map fst snd] in *. subst v. rewrite IH. reflexivity. }
  by apply dict_of_items_id.
Qed.

(** Flattening a flattened dict changes nothing, whatever the keys are:
    [create_csv] flattens a top-level dict at line 415 and again at line
    417. *)
Theorem flatten_dict_twice (d : list (pystr * value)) (sep : pystr) :
  flatten_dict (flatten_dict d [] sep) [] sep = flatten_dict d [] sep.
Proof.
  apply flatten_dict_of_flat; [apply dict_of_items_NoDup|].
  rewrite <- entry_items_dict.
  eapply Forall_impl; [apply entry_items_leaves|].
  intros kv (_ & x & Hx & _). by exists x.
Qed.
End FlattenDict.

Arguments value : clear implicits.

(** [{"a": {"b": 1, "c": {"d": 2}}, "e": 3}] *)
Definition nested_abcde : list (pystr * value nat) :=
  [(py "a", Dict [(py "b", Leaf 1); (py "c", Dict [(py "d", Leaf 2)])]);
   (py "e", Leaf 3)].

(** [flatten_dict_paths] on that dict, with the default separator. *)
Lemma flatten_dict_paths_abcde :
  flatten_dict nested_abcde [] (py ".")
  = [(py "a.b", Leaf 1); (py "a.c.d", Leaf 2); (py "e", Leaf 3)].
Proof.
  apply (flatten_dict_paths nested_abcde [] 46%N []). vm_compute. reflexivity.
Defined.

(** Without these conditions entries are lost: in
    [{"a": {"b": 1}, "a.b": 2}] and, with an empty key, in
    [{empty: {"x": 1}, "x": 2}] two values get the same key, and the later
    one stays. *)
Lemma flatten_dict_key_clash :
  flatten_dict [(py "a", Dict [(py "b", Leaf 1)]); (py "a.b", Leaf 2)] [] (py ".")
  = [(py "a.b", Leaf 2)]
  ∧ flatten_dict [([], Dict [(py "x", Leaf 1)]); (py "x", Leaf 2)] [] (py ".")
    = [(py "x", Leaf 2)].
Proof. split; vm_compute; reflexivity. Qed.

(** ** [strip_code_fences] of [feature_3] (lines 377-378) *)

(** [str.isspace] *)
Definition is_space (c : N) : bool :=
  (((0x09 <=? c) && (c <=? 0x0D)) || ((0x1C <=? c) && (c <=? 0x20))
   || (c =? 0x85) || (c =? 0xA0) || (c =? 0x1680)
   || ((0x2000 <=? c) && (c <=? 0x200A)) || (c =? 0x2028) || (c =? 0x2029)
   || (c =? 0x202F) || (c =? 0x205F) || (c =? 0x3000))%N.

(** [s.lstrip()] *)
Fixpoint lstrip (s : pystr) : pystr :=
  match s with
  | [] => []
  | c :: s' => if is_space c then lstrip s' else s
  end.

(** [s.strip()] *)
Definition strip (s : pystr) : pystr :=
  reverse (lstrip (reverse (lstrip s))).

(** The fence of a code block. *)
Definition fence : pystr := py "```".

(** [[a-zA-Z]] *)
Definition is_letter (c : N) : bool :=
  (((0x41 <=? c) && (c <=? 0x5A)) || ((0x61 <=? c) && (c <=? 0x7A)))%N.

(** [^] and [$] under [re.MULTILINE] *)
Definition line_start (prev : option N) : bool :=
  match prev with None => true | Some c => (c =? LF)%N end.

(** The next character is a newline. *)
Definition at_newline (s : pystr) : bool :=
  match s with [] => false | c :: _ => (c =? LF)%N end.

Definition line_end (s : pystr) : bool :=
  match s with [] => true | _ :: _ => at_newline s end.

(** [^```[a-zA-Z]*\n|```$]: at the start of a line, a fence, a longest run
    of letters and a newline (a shorter run is followed by a letter, so
    backtracking finds no other match); otherwise a fence at the end of a
    line. *)
Definition pat_fence (prev : option N) (s : pystr) : option nat :=
  if startswith s fence then
    let rest := drop 3 s in
    let n := span_while is_letter rest in
    if line_start prev && at_newline (drop n rest) then Some (3 + n + 1)
    else if line_end rest then Some 3
    else None
  else None.

(** [re.sub(r"^```[a-zA-Z]*\n|```$", empty, text.strip(), flags=re.MULTILINE)],
    the replacement being the empty string *)
Definition strip_code_fences (text : pystr) : pystr :=
  re_sub pat_fence (λ _, []) None 0 (strip text).

(** No fence starts anywhere in [s]. *)
Fixpoint fence_free (s : pystr) : bool :=
  match s with
  | [] => true
  | _ :: s' => negb (startswith s fence) && fence_free s'
  end.

Lemma lstrip_drop (s : pystr) : lstrip s = drop (span_while is_space s) s.
Proof. induction s as [|c s IH]; [done|]. cbn. by destruct (is_space c). Qed.

Lemma strip_sublist (s : pystr) : strip s `sublist_of` s.
Proof.
  unfold strip. rewrite (lstrip_drop (reverse _)), reverse_drop, reverse_involutive.
  etrans; [apply sublist_take|]. rewrite lstrip_drop. apply sublist_drop.
Qed.

Lemma lstrip_id (c : N) (s : pystr) : is_space c = false → lstrip (c :: s) = c :: s.
Proof. intros Hc. cbn. by rewrite Hc. Qed.

Lemma strip_id (c1 c2 : N) (s : pystr) :
  is_space c1 = false → is_space c2 = false →
  strip (c1 :: s ++ [c2]) = c1 :: s ++ [c2].
Proof.
  intros H1 H2. unfold strip. rewrite lstrip_id by done.
  rewrite app_comm_cons, reverse_snoc, lstrip_id by done.
  by rewrite <- reverse_snoc, reverse_involutive.
Qed.

Lemma pat_fence_None (prev : option N) (s : pystr) :
  startswith s fence = false → pat_fence prev s = None.
Proof. intros Hs. unfold pat_fence. by rewrite Hs. Qed.

Lemma re_sub_fence_free (prev : option N) (s : pystr) :
  fence_free s = true → re_sub pat_fence (λ _, []) prev 0 s = s.
Proof.
  revert prev. induction s as [|c s IH]; intros prev Hs; [done|].
  cbn [fence_free] in Hs. apply andb_prop in Hs as [Hc%negb_true_iff Hs].
  cbn [re_sub]. rewrite pat_fence_None by done. f_equal. by apply IH.
Qed.

(** [strip_code_fences] only deletes: its result is a subsequence of the
    text; where the stripped text holds no fence, it is the stripped
    text. *)
Theorem strip_code_fences_deletes_only (text : pystr) :
  strip_code_fences text `sublist_of` text
  ∧ (fence_free (strip text) = true → strip_code_fences text = strip text).
Proof.
  unfold strip_code_fences. split.
  - etrans; [apply re_sub_delete_sublist|apply strip_sublist].
  - apply re_sub_fence_free.
Qed.

Lemma startswith_fence_before_LF (b r : pystr) :
  startswith (b ++ LF :: r) fence = startswith b fence.
Proof.
  change fence with [96; 96; 96]%N.
  destruct b as [|c1 [|c2 [|c3 b]]]; cbn [startswith app]; try done;
    change (96 =? LF)%N with false; by rewrite ?andb_false_r, ?startswith_nil.
Qed.

Lemma span_while_letters (lang rest : pystr) :
  forallb is_letter lang = true →
  span_while is_letter (lang ++ LF :: rest) = length lang.
Proof.
  induction lang as [|c lang IH]; [done|]. cbn.
  intros [-> H]%andb_prop. by rewrite IH.
Qed.

Lemma re_sub_closing_fence (prev : option N) (body : pystr) :
  fence_free body = true →
  re_sub pat_fence (λ _, []) prev 0 (body ++ LF :: fence) = body ++ [LF].
Proof.
  revert prev. induction body as [|c body IH]; intros prev Hb; [done|].
  cbn [fence_free] in Hb. apply andb_prop in Hb as [Hc%negb_true_iff Hb].
  change ((c :: body) ++ LF :: fence) with (c :: (body ++ LF :: fence)).
  cbn [re_sub]. rewrite pat_fence_None.
  - cbn [app]. f_equal. by apply IH.
  - change (c :: (body ++ LF :: fence)) with ((c :: body) ++ LF :: fence).
    by rewrite startswith_fence_before_LF.
Qed.

Lemma re_sub_match pat repl (prev : option N) (s : pystr) (k : nat) :
  pat prev s = Some (S k) → s ≠ [] →
  re_sub pat repl prev 0 s
  = repl (take (S k) s)
    ++ re_sub pat repl (last (take (S k) s)) 0 (drop (S k) s).
Proof.
  intros Hm Hs. destruct s as [|c s]; [done|]. cbn [re_sub]. rewrite Hm.
  rewrite re_sub_skip. cbn [take drop]. rewrite last_cons.
  by destruct (last (take k s)).
Qed.

Lemma pat_fence_open (lang rest : pystr) :
  forallb is_letter lang = true →
  pat_fence None (fence ++ lang ++ LF :: rest) = Some (S (3 + length lang)).
Proof.
  intros Hlang. unfold pat_fence.
  rewrite (proj2 (startswith_app _ fence)) by by eexists.
  change (drop 3 (fence ++ lang ++ LF :: rest)) with (lang ++ LF :: rest).
  rewrite span_while_letters by done. rewrite drop_app_length.
  cbn [line_start at_newline andb]. change (LF =? LF)%N with true.
  by rewrite Nat.add_1_r.
Qed.

(** A block between an opening fence with a language of letters and a
    closing fence, whose body holds no fence, comes back as the body and
    the newline before the closing fence. *)
Theorem strip_code_fences_fenced (lang body : pystr) :
  forallb is_letter lang = true → fence_free body = true →
  strip_code_fences (fence ++ lang ++ LF :: body ++ LF :: fence)
  = body ++ [LF].
Proof.
  intros Hlang Hbody. unfold strip_code_fences.
  assert (strip (fence ++ lang ++ LF :: body ++ LF :: fence)
          = fence ++ lang ++ LF :: body ++ LF :: fence) as ->.
  { change (fence ++ lang ++ LF :: body ++ LF :: fence)
      with (96%N :: ([96; 96]%N ++ lang ++ LF :: body ++ ([LF; 96; 96]%N ++ [96%N]))).
    rewrite (app_comm_cons _ _ LF), !(app_assoc _ _ [96%N]).
    by apply strip_id. }
  rewrite (re_sub_match _ _ _ _ _ (pat_fence_open lang _ Hlang)) by done.
  cbn [app]. 
  replace (drop (S (3 + length lang)) (fence ++ lang ++ LF :: body ++ LF :: fence))
    with (body ++ LF :: fence).
  - by apply re_sub_closing_fence.
  - change (LF :: body ++ LF :: fence) with ([LF] ++ body ++ LF :: fence).
    rewrite (app_assoc lang), (app_assoc fence).
    rewrite drop_app_length'; [done|].
    rewrite !length_app. cbn. lia.
Qed.

(** [strip_code_fences_fenced] on a fenced line of Python. *)
Lemma strip_code_fences_fenced_python :
  strip_code_fences (fence ++ py "python" ++ LF :: py "x = 1" ++ LF :: fence)
  = py "x = 1" ++ [LF].
Proof.
  apply (strip_code_fences_fenced (py "python") (py "x = 1")); reflexivity.
Defined.
